(** * Pebble client runtime: the orchestrator (PebbleClient) and the
      bookkeeping of the coordination-service client (ZookeeperClient).

    The C++ member functions are embedded as functions on an explicit
    client state.  Calls that leave the client (log macros, processors,
    the transport, timers, ...) are recorded, in program order, in the
    [trace] field of the state; values handed back by those collaborators
    are read from a [World] record. *)

From Stdlib Require Import ZArith Lia.
From Stdlib Require OrderedTypeEx.
From stdpp Require Import gmap strings list fin_maps sorting.

Local Open Scope Z_scope.

(** ** Machine integers *)

(** [int32_t]: two's complement on 32 bits; an overflowing [+=] is taken
    to wrap around. *)
Definition wrap32 (z : Z) : Z := (z + 2 ^ 31) mod 2 ^ 32 - 2 ^ 31.

(** [num += x] on an [int32_t]. *)
Definition add32 (num x : Z) : Z := wrap32 (num + x).

Definition in_int32 (z : Z) : Prop := - 2 ^ 31 <= z < 2 ^ 31.

(** ** Pointers *)

(** Object addresses ([IProcessor*], [Router*], [Naming*], ...).  Only
    comparison with [NULL] and with each other is used by the code. *)
Abbreviation ptr := Z (only parsing).
Definition NULL : ptr := 0.

Module PebbleClient.

(** [MsgExternInfo] (framework/message.h): the two members the client reads. *)
Record MsgExternInfo := {
  _self_handle : Z;
  _remote_handle : Z
}.

(** Arguments of a printf-style log line. *)
Inductive LogArg :=
| ArgInt (z : Z)
| ArgStr (s : string)
| ArgPtr (p : ptr).

(** Calls that leave the client object, with the values they carry. *)
Inductive Effect :=
| PLOG_ERROR (fmt : string) (args : list LogArg)
| PLOG_INFO (fmt : string)
| IProcessor_OnMessage (processor : ptr) (handle : Z) (msg : list Z)
    (msg_len : Z) (info : MsgExternInfo) (is_overload : Z)
| Router_SetOnAddressChanged (router : ptr) (bound_router bound_processor : ptr)
| Message_Update (n : Z)
| Naming_Update (i : nat) (n : Z)
| IProcessor_Update (i : nat) (n : Z)
| Timer_Update (n : Z)
| SessionMgr_CheckTimeout (n : Z)
| StatManager_Update (n : Z)
| Stat_AddResourceItem (name : string) (value : Z)
| RegisterErrorString
| InitLog
| Timer_StartTimer (timeout_ms : Z) (ret : Z)
| CoroutineSchedule_Init (ret : Z)
| StatManager_SetReportCycle
| StatManager_SetGdataParameter
| StatManager_Init (ret : Z)
| Message_Init (ret : Z)
| SetRouterFactory (ret : Z)
| Signal_SIGPIPE_IGN
| RouterFactory_GetRouter (factory : ptr) (name : string) (router : ptr)
| NamingFactory_GetNaming (factory : ptr) (naming : ptr)
| Router_Init (router : ptr) (naming : ptr) (ret : Z)
| Delete (object : ptr).

(** The members of [PebbleClient] that the modelled functions touch.
    [m_naming_array] and [m_processor_array] have [kNAMING_BUTT] and
    [kPROTOCOL_TYPE_BUTT] slots; [next_object] is the allocator behind
    [new]; [trace] is the record of outgoing calls. *)
Record State := {
  m_coroutine_schedule : ptr;
  m_stat_manager : ptr;
  m_timer : ptr;
  m_stat_timer_ms : Z;
  m_session_mgr : ptr;
  m_naming_array : list ptr;
  m_processor_array : list ptr;
  m_processor_map : gmap Z ptr;
  m_router_map : gmap string ptr;
  m_router_handle_map : gmap Z (list Z);
  m_last_msg_info : MsgExternInfo;
  next_object : Z;
  trace : list Effect
}.

Definition set_processor_map (f : gmap Z ptr → gmap Z ptr) (st : State) : State :=
  {| m_coroutine_schedule := m_coroutine_schedule st;
     m_stat_manager := m_stat_manager st;
     m_timer := m_timer st;
     m_stat_timer_ms := m_stat_timer_ms st;
     m_session_mgr := m_session_mgr st;
     m_naming_array := m_naming_array st;
     m_processor_array := m_processor_array st;
     m_processor_map := f (m_processor_map st);
     m_router_map := m_router_map st;
     m_router_handle_map := m_router_handle_map st;
     m_last_msg_info := m_last_msg_info st;
     next_object := next_object st;
     trace := trace st |}.

Definition set_router_map (f : gmap string ptr → gmap string ptr) (st : State) : State :=
  {| m_coroutine_schedule := m_coroutine_schedule st;
     m_stat_manager := m_stat_manager st;
     m_timer := m_timer st;
     m_stat_timer_ms := m_stat_timer_ms st;
     m_session_mgr := m_session_mgr st;
     m_naming_array := m_naming_array st;
     m_processor_array := m_processor_array st;
     m_processor_map := m_processor_map st;
     m_router_map := f (m_router_map st);
     m_router_handle_map := m_router_handle_map st;
     m_last_msg_info := m_last_msg_info st;
     next_object := next_object st;
     trace := trace st |}.

Definition set_router_handle_map (f : gmap Z (list Z) → gmap Z (list Z))
    (st : State) : State :=
  {| m_coroutine_schedule := m_coroutine_schedule st;
     m_stat_manager := m_stat_manager st;
     m_timer := m_timer st;
     m_stat_timer_ms := m_stat_timer_ms st;
     m_session_mgr := m_session_mgr st;
     m_naming_array := m_naming_array st;
     m_processor_array := m_processor_array st;
     m_processor_map := m_processor_map st;
     m_router_map := m_router_map st;
     m_router_handle_map := f (m_router_handle_map st);
     m_last_msg_info := m_last_msg_info st;
     next_object := next_object st;
     trace := trace st |}.

Definition set_naming_array (f : list ptr → list ptr) (st : State) : State :=
  {| m_coroutine_schedule := m_coroutine_schedule st;
     m_stat_manager := m_stat_manager st;
     m_timer := m_timer st;
     m_stat_timer_ms := m_stat_timer_ms st;
     m_session_mgr := m_session_mgr st;
     m_naming_array := f (m_naming_array st);
     m_processor_array := m_processor_array st;
     m_processor_map := m_processor_map st;
     m_router_map := m_router_map st;
     m_router_handle_map := m_router_handle_map st;
     m_last_msg_info := m_last_msg_info st;
     next_object := next_object st;
     trace := trace st |}.

Definition set_timer (p : ptr) (st : State) : State :=
  {| m_coroutine_schedule := m_coroutine_schedule st;
     m_stat_manager := m_stat_manager st;
     m_timer := p;
     m_stat_timer_ms := m_stat_timer_ms st;
     m_session_mgr := m_session_mgr st;
     m_naming_array := m_naming_array st;
     m_processor_array := m_processor_array st;
     m_processor_map := m_processor_map st;
     m_router_map := m_router_map st;
     m_router_handle_map := m_router_handle_map st;
     m_last_msg_info := m_last_msg_info st;
     next_object := next_object st;
     trace := trace st |}.

Definition set_coroutine_schedule (p : ptr) (st : State) : State :=
  {| m_coroutine_schedule := p;
     m_stat_manager := m_stat_manager st;
     m_timer := m_timer st;
     m_stat_timer_ms := m_stat_timer_ms st;
     m_session_mgr := m_session_mgr st;
     m_naming_array := m_naming_array st;
     m_processor_array := m_processor_array st;
     m_processor_map := m_processor_map st;
     m_router_map := m_router_map st;
     m_router_handle_map := m_router_handle_map st;
     m_last_msg_info := m_last_msg_info st;
     next_object := next_object st;
     trace := trace st |}.

Definition set_stat_manager (p : ptr) (st : State) : State :=
  {| m_coroutine_schedule := m_coroutine_schedule st;
     m_stat_manager := p;
     m_timer := m_timer st;
     m_stat_timer_ms := m_stat_timer_ms st;
     m_session_mgr := m_session_mgr st;
     m_naming_array := m_naming_array st;
     m_processor_array := m_processor_array st;
     m_processor_map := m_processor_map st;
     m_router_map := m_router_map st;
     m_router_handle_map := m_router_handle_map st;
     m_last_msg_info := m_last_msg_info st;
     next_object := next_object st;
     trace := trace st |}.

(** An outgoing call is appended to the trace. *)
Definition emit (e : Effect) (st : State) : State :=
  {| m_coroutine_schedule := m_coroutine_schedule st;
     m_stat_manager := m_stat_manager st;
     m_timer := m_timer st;
     m_stat_timer_ms := m_stat_timer_ms st;
     m_session_mgr := m_session_mgr st;
     m_naming_array := m_naming_array st;
     m_processor_array := m_processor_array st;
     m_processor_map := m_processor_map st;
     m_router_map := m_router_map st;
     m_router_handle_map := m_router_handle_map st;
     m_last_msg_info := m_last_msg_info st;
     next_object := next_object st;
     trace := trace st ++ [e] |}.

(** [new T()]: a fresh, non-null address. *)
Definition new (st : State) : ptr * State :=
  (next_object st,
   {| m_coroutine_schedule := m_coroutine_schedule st;
      m_stat_manager := m_stat_manager st;
      m_timer := m_timer st;
      m_stat_timer_ms := m_stat_timer_ms st;
      m_session_mgr := m_session_mgr st;
      m_naming_array := m_naming_array st;
      m_processor_array := m_processor_array st;
      m_processor_map := m_processor_map st;
      m_router_map := m_router_map st;
      m_router_handle_map := m_router_handle_map st;
      m_last_msg_info := m_last_msg_info st;
      next_object := next_object st + 1;
      trace := trace st |}).

(** The constructor: every pointer member is NULL, both maps are empty. *)
Definition PebbleClient (kNAMING_BUTT kPROTOCOL_TYPE_BUTT : nat) : State :=
  {| m_coroutine_schedule := NULL;
     m_stat_manager := NULL;
     m_timer := NULL;
     m_stat_timer_ms := 1000;
     m_session_mgr := NULL;
     m_naming_array := replicate kNAMING_BUTT NULL;
     m_processor_array := replicate kPROTOCOL_TYPE_BUTT NULL;
     m_processor_map := ∅;
     m_router_map := ∅;
     m_router_handle_map := ∅;
     m_last_msg_info := {| _self_handle := 0; _remote_handle := 0 |};
     next_object := 1;
     trace := [] |}.

(** ** The processor registry *)

(** [int32_t PebbleClient::Attach(int64_t handle, IProcessor* processor)] *)
Definition Attach (st : State) (handle : Z) (processor : ptr) : Z * State :=
  if decide (NULL = processor) then
    (-1, emit (PLOG_ERROR "param processor is NULL" []) st)
  else
    (0, set_processor_map (<[handle := processor]>) st).

(** [int32_t PebbleClient::Detach(int64_t handle)]: [erase] hands back the
    number of removed entries. *)
Definition Detach (st : State) (handle : Z) : Z * State :=
  let num := match m_processor_map st !! handle with Some _ => 1 | None => 0 end in
  (if decide (num = 1) then 0 else -1, set_processor_map (delete handle) st).

(** [int32_t PebbleClient::OnMessage(msg, msg_len, info)]: the transport's
    message callback. *)
Definition OnMessage (st : State) (msg : list Z) (msg_len : Z)
    (info : MsgExternInfo) : Z * State :=
  match m_processor_map st !! _self_handle info with
  | None =>
      (1, emit (PLOG_ERROR "handle(%ld) not attach a processor remote(%ld)"
                  [ArgInt (_self_handle info); ArgInt (_remote_handle info)]) st)
  | Some processor =>
      (1, emit (IProcessor_OnMessage processor
                  (_remote_handle (m_last_msg_info st)) msg msg_len info 0) st)
  end.

(** [int32_t PebbleClient::Attach(Router* router, IProcessor* processor)]:
    binds [OnRouterAddressChanged] to this router and this processor and
    hands the binding to the router. *)
Definition Attach_router (st : State) (router processor : ptr) : Z * State :=
  if decide (NULL = router ∨ NULL = processor) then
    (-1, emit (PLOG_ERROR "param error. &router = %p &processor = %p"
                 [ArgPtr router; ArgPtr processor]) st)
  else
    (0, emit (Router_SetOnAddressChanged router router processor) st).

(** The two loops of [OnRouterAddressChanged]; the status of each call is
    dropped, as in the source. *)
Definition attach_each (st : State) (handles : list Z) (processor : ptr) : State :=
  foldl (λ st hit, (Attach st hit processor).2) st handles.

Definition detach_each (st : State) (handles : list Z) : State :=
  foldl (λ st oit, (Detach st oit).2) st handles.

(** [void PebbleClient::OnRouterAddressChanged(router, handles, processor)] *)
Definition OnRouterAddressChanged (st : State) (router : ptr)
    (handles : list Z) (processor : ptr) : State :=
  match m_router_handle_map st !! router with
  | None =>
      let st := attach_each st handles processor in
      set_router_handle_map (<[router := handles]>) st
  | Some old =>
      let st := detach_each st old in
      let st := attach_each st handles processor in
      set_router_handle_map (<[router := handles]>) st
  end.

(** ** Collaborators *)

(** What the collaborators hand back during one call into the client, and
    the two constants of the missing headers that the code relies on. *)
Record World := {
  Message_Update_ret : Z;
  Naming_Update_ret : nat → Z;
  IProcessor_Update_ret : nat → Z;
  Timer_Update_ret : Z;
  SessionMgr_CheckTimeout_ret : Z;
  StatManager_Update_ret : Z;
  GetCurrentMS_old : Z;
  GetCurrentMS_now : Z;
  Timer_StartTimer_ret : Z;
  Timer_GetLastError : string;
  CoroutineSchedule_Init_ret : Z;
  StatManager_Init_ret : Z;
  Message_Init_ret : Z;
  SetRouterFactory_ret : Z;
  GetRouterFactory : Z → ptr;
  GetNamingFactory : nat → ptr;
  RouterFactory_GetRouter_ret : ptr → string → ptr;
  NamingFactory_GetNaming_ret : ptr → ptr;
  Router_Init_ret : ptr → ptr → Z;
  GetNaming_default_type : nat
}.

(** ** Lazily created naming backends and routers *)

(** A result of [None] stands for undefined behaviour of the C++ code
    (an index outside the array, a call through a null pointer). *)

(** [Naming* PebbleClient::GetNaming(NamingType naming_type)] *)
Definition GetNaming (w : World) (st : State) (naming_type : nat)
    : option (ptr * State) :=
  p ← m_naming_array st !! naming_type;
  if decide (p ≠ NULL) then Some (p, st)
  else
    let factory := GetNamingFactory w naming_type in
    if decide (factory = NULL) then
      Some (NULL, emit (PLOG_ERROR "unsupport naming_type %d"
                          [ArgInt (Z.of_nat naming_type)]) st)
    else
      let naming := NamingFactory_GetNaming_ret w factory in
      let st := emit (NamingFactory_GetNaming factory naming) st in
      Some (naming, set_naming_array (<[naming_type := naming]>) st).

(** [Router* PebbleClient::GetRouter(const std::string& name, RouterType)] *)
Definition GetRouter (w : World) (st : State) (name : string) (router_type : Z)
    : option (ptr * State) :=
  if decide (name = "") then
    Some (NULL, emit (PLOG_ERROR "name is empty" []) st)
  else
    match m_router_map st !! name with
    | Some router => Some (router, st)
    | None =>
        let factory := GetRouterFactory w router_type in
        if decide (factory = NULL) then
          Some (NULL, emit (PLOG_ERROR "unsupport router_type %d"
                              [ArgInt router_type]) st)
        else
          let router := RouterFactory_GetRouter_ret w factory name in
          let st := emit (RouterFactory_GetRouter factory name router) st in
          '(naming, st) ← GetNaming w st (GetNaming_default_type w);
          if decide (router = NULL) then None
          else
            let ret := Router_Init_ret w router naming in
            let st := emit (Router_Init router naming ret) st in
            let st :=
              if decide (ret ≠ 0) then
                emit (PLOG_ERROR "router %s init failed(%d)"
                        [ArgStr name; ArgInt ret]) st
              else st in
            Some (router, set_router_map (<[name := router]>) st)
    end.

(** ** The update loop *)

(** [for (i = 0; i < N; ++i) { if (array[i]) { body } }], started at
    index [i]. *)
Fixpoint for_each_present {Acc : Type} (body : nat → Acc → Acc) (i : nat)
    (array : list ptr) (s : Acc) : Acc :=
  match array with
  | [] => s
  | p :: array' =>
      for_each_present body (S i) array'
        (if decide (p ≠ NULL) then body i s else s)
  end.

(** [int32_t PebbleClient::Update()]

    The statements of the function body, in their order.  A call into a
    collaborator is recorded with the count it returns.  What the
    collaborator runs inside its call is not part of this function: the
    callbacks the client has bound ([OnMessage] to the transport,
    [OnRouterAddressChanged] to a router, [OnStatTimeout] to the timer)
    are entry points of their own, and it is they that write the members
    when a collaborator runs them.  [GetStat()] of a statistics manager
    that exists is taken to hand back its [Stat] object. *)
Definition Update (w : World) (st : State) : Z * State :=
  let num := 0 in
  let old := GetCurrentMS_old w in
  let n := Message_Update_ret w in
  let '(num, st) := (add32 num n, emit (Message_Update n) st) in
  let '(num, st) :=
    for_each_present
      (λ i '(num, st),
         let n := Naming_Update_ret w i in
         (add32 num n, emit (Naming_Update i n) st))
      0%nat (m_naming_array st) (num, st) in
  let '(num, st) :=
    for_each_present
      (λ i '(num, st),
         let n := IProcessor_Update_ret w i in
         (num, emit (IProcessor_Update i n) st))
      0%nat (m_processor_array st) (num, st) in
  let '(num, st) :=
    if decide (m_timer st ≠ NULL) then
      let n := Timer_Update_ret w in
      (add32 num n, emit (Timer_Update n) st)
    else (num, st) in
  let '(num, st) :=
    if decide (m_session_mgr st ≠ NULL) then
      let n := SessionMgr_CheckTimeout_ret w in
      (add32 num n, emit (SessionMgr_CheckTimeout n) st)
    else (num, st) in
  let '(num, st) :=
    if decide (m_stat_manager st ≠ NULL) then
      let n := StatManager_Update_ret w in
      let st := emit (StatManager_Update n) st in
      (add32 num n,
       emit (Stat_AddResourceItem "_loop" (GetCurrentMS_now w - old)) st)
    else (num, st) in
  (num, st).

(** ** Start-up *)

(** [int32_t PebbleClient::InitTimer()] *)
Definition InitTimer (w : World) (st : State) : Z * State :=
  let st :=
    if decide (m_timer st = NULL) then
      let '(p, st) := new st in set_timer p st
    else st in
  let ret := Timer_StartTimer_ret w in
  let st := emit (Timer_StartTimer (m_stat_timer_ms st) ret) st in
  if decide (ret < 0) then
    (-1, emit (PLOG_ERROR "start stat timer failed(%d:%s)"
                 [ArgInt ret; ArgStr (Timer_GetLastError w)]) st)
  else (0, st).

(** [int32_t PebbleClient::InitCoSchedule()] *)
Definition InitCoSchedule (w : World) (st : State) : Z * State :=
  if decide (m_coroutine_schedule st ≠ NULL) then (0, st)
  else
    let '(p, st) := new st in
    let st := set_coroutine_schedule p st in
    let ret := CoroutineSchedule_Init_ret w in
    let st := emit (CoroutineSchedule_Init ret) st in
    if decide (ret ≠ 0) then
      let st := emit (Delete p) st in
      let st := set_coroutine_schedule NULL st in
      (-1, emit (PLOG_ERROR "co schedule init failed(%d)" [ArgInt ret]) st)
    else (0, st).

(** [int32_t PebbleClient::InitStat()] *)
Definition InitStat (w : World) (st : State) : Z * State :=
  let st :=
    if decide (m_stat_manager st = NULL) then
      let '(p, st) := new st in set_stat_manager p st
    else st in
  let st := emit StatManager_SetReportCycle st in
  let st := emit StatManager_SetGdataParameter st in
  let ret := StatManager_Init_ret w in
  (ret, emit (StatManager_Init ret) st).

(** The macro [CHECK_RETURN(ret)]: [if (ret) { return -1; }], followed by
    the rest of the function. *)
Definition CHECK_RETURN (ret : Z) (st : State) (rest : State → Z * State)
    : Z * State :=
  if decide (ret ≠ 0) then (-1, st) else rest st.

(** [int32_t PebbleClient::Init()] *)
Definition Init (w : World) (st : State) : Z * State :=
  let st := emit RegisterErrorString st in
  let st := emit InitLog st in
  let st := emit (PLOG_INFO "%s") st in
  let '(ret, st) := InitTimer w st in
  CHECK_RETURN ret st (λ st,
  let '(ret, st) := InitCoSchedule w st in
  CHECK_RETURN ret st (λ st,
  let '(ret, st) := InitStat w st in
  CHECK_RETURN ret st (λ st,
  let ret := Message_Init_ret w in
  let st := emit (Message_Init ret) st in
  CHECK_RETURN ret st (λ st,
  let ret := SetRouterFactory_ret w in
  let st := emit (SetRouterFactory ret) st in
  CHECK_RETURN ret st (λ st,
  (0, emit Signal_SIGPIPE_IGN st)))))).

End PebbleClient.

(** ** std::set *)

(** [std::set<T, Less>] as the list of its elements in iteration order
    (ascending).  Two elements are equivalent when neither is less than the
    other; [insert] keeps the element already present, [erase] removes the
    equivalent element. *)
Module StdSet.

Section Ops.
Context {T : Type} (less : T → T → bool).

Definition equivalent (a b : T) : bool := negb (less a b) && negb (less b a).

(** The representation invariant: strictly ascending. *)
Definition ascending (s : list T) : Prop :=
  StronglySorted (λ a b, less a b = true) s.

Fixpoint insert (x : T) (s : list T) : list T :=
  match s with
  | [] => [x]
  | y :: s' =>
      if less x y then x :: y :: s'
      else if less y x then y :: insert x s'
      else y :: s'
  end.

Fixpoint erase (x : T) (s : list T) : list T :=
  match s with
  | [] => []
  | y :: s' =>
      if less x y then y :: s'
      else if less y x then y :: erase x s'
      else s'
  end.

Fixpoint find (x : T) (s : list T) : option T :=
  match s with
  | [] => None
  | y :: s' =>
      if less x y then None
      else if less y x then find x s'
      else Some y
  end.

End Ops.

End StdSet.

Module ZookeeperClient.

(** [struct Id], [struct ACL] and [struct ACL_vector] of zookeeper.h. *)
Record Id := { scheme : string; id : string }.
Record ACL := { perms : Z; acl_id : Id }.
Abbreviation ACL_vector := (list ACL) (only parsing).

(** [struct EphemeralNodeInfo] *)
Record EphemeralNodeInfo := {
  _path : string;
  _value : string;
  _acl_vec : ACL_vector
}.

(** [bool EphemeralNodeInfo::operator<(const EphemeralNodeInfo& rhs) const]:
    [_path.compare(rhs._path) < 0]. *)
Definition operator_lt (lhs rhs : EphemeralNodeInfo) : bool :=
  String.ltb (_path lhs) (_path rhs).

(** [std::less<std::string>] *)
Definition string_less (a b : string) : bool := String.ltb a b.

(** Modelled from the spec: the connection states of section 4.4
    ([Connecting] remembers whether it follows a session expiry). *)
Inductive Session :=
| Disconnected
| Connecting (after_expiry : bool)
| Connected
| SessionExpired
| Closed.

(** The bookkeeping members of [class ZookeeperClient], and the session
    state. *)
Record State := {
  m_auths_set : list string;
  m_get_watch : list string;
  m_get_child_watch : list string;
  m_exist_watch : list string;
  m_ephemeral_node : list EphemeralNodeInfo;
  session : Session
}.

(** The constructor: nothing recorded, not connected. *)
Definition ZookeeperClient : State :=
  {| m_auths_set := [];
     m_get_watch := [];
     m_get_child_watch := [];
     m_exist_watch := [];
     m_ephemeral_node := [];
     session := Disconnected |}.

(** Modelled from the spec: the requests a replay sends to the
    coordination service. *)
Inductive Request :=
| zoo_add_auth (credential : string)
| zoo_acreate_ephemeral (path value : string) (acl : ACL_vector)
| zoo_aget_watch (path : string)
| zoo_aget_children_watch (path : string)
| zoo_aexists_watch (path : string).

(** Modelled from the spec: what happens to a client, completed
    application calls and signals of the coordination service. *)
Inductive Event :=
| AConnect
| OnConnected
| OnSessionExpired
| Reconnect
| Close
| AddDigestAuth (digest_auth : string)
| CreateEphemeral (path value : string) (acl : ACL_vector)
| Delete (path : string)
| Get_watch (path : string)
| GetChildren_watch (path : string)
| Exists_watch (path : string)
| WatchFired (path : string).

(** Modelled from the spec: the session state changes, the bookkeeping
    stays. *)
Definition with_session (s : Session) (st : State) : State :=
  {| m_auths_set := m_auths_set st;
     m_get_watch := m_get_watch st;
     m_get_child_watch := m_get_child_watch st;
     m_exist_watch := m_exist_watch st;
     m_ephemeral_node := m_ephemeral_node st;
     session := s |}.

(** Modelled from the spec: zookeeper_client.cpp is not part of the
    sources.  An auth entry is added to the set and never removed. *)
Definition record_auth (digest_auth : string) (st : State) : State :=
  {| m_auths_set := StdSet.insert string_less digest_auth (m_auths_set st);
     m_get_watch := m_get_watch st;
     m_get_child_watch := m_get_child_watch st;
     m_exist_watch := m_exist_watch st;
     m_ephemeral_node := m_ephemeral_node st;
     session := session st |}.

(** Modelled from the spec: zookeeper_client.cpp is not part of the
    sources.  The three watch sets are keyed by path; watching a path
    again changes nothing. *)
Definition record_get_watch (path : string) (st : State) : State :=
  {| m_auths_set := m_auths_set st;
     m_get_watch := StdSet.insert string_less path (m_get_watch st);
     m_get_child_watch := m_get_child_watch st;
     m_exist_watch := m_exist_watch st;
     m_ephemeral_node := m_ephemeral_node st;
     session := session st |}.

(** Modelled from the spec: zookeeper_client.cpp is not part of the
    sources.  The child-watch set, as [record_get_watch]. *)
Definition record_get_child_watch (path : string) (st : State) : State :=
  {| m_auths_set := m_auths_set st;
     m_get_watch := m_get_watch st;
     m_get_child_watch := StdSet.insert string_less path (m_get_child_watch st);
     m_exist_watch := m_exist_watch st;
     m_ephemeral_node := m_ephemeral_node st;
     session := session st |}.

(** Modelled from the spec: zookeeper_client.cpp is not part of the
    sources.  The exist-watch set, as [record_get_watch]. *)
Definition record_exist_watch (path : string) (st : State) : State :=
  {| m_auths_set := m_auths_set st;
     m_get_watch := m_get_watch st;
     m_get_child_watch := m_get_child_watch st;
     m_exist_watch := StdSet.insert string_less path (m_exist_watch st);
     m_ephemeral_node := m_ephemeral_node st;
     session := session st |}.

Definition set_ephemeral_node
    (f : list EphemeralNodeInfo → list EphemeralNodeInfo) (st : State) : State :=
  {| m_auths_set := m_auths_set st;
     m_get_watch := m_get_watch st;
     m_get_child_watch := m_get_child_watch st;
     m_exist_watch := m_exist_watch st;
     m_ephemeral_node := f (m_ephemeral_node st);
     session := session st |}.

(** Modelled from the spec: zookeeper_client.cpp is not part of the
    sources.  A created ephemeral node is recorded under its path;
    registering a path again replaces the prior entry, so the entry with
    that path is erased before the new one is inserted. *)
Definition record_ephemeral (node : EphemeralNodeInfo) (st : State) : State :=
  set_ephemeral_node
    (λ s, StdSet.insert operator_lt node (StdSet.erase operator_lt node s)) st.

(** Modelled from the spec: zookeeper_client.cpp is not part of the
    sources.  A node deleted by the application leaves the recovery set at
    deletion time. *)
Definition forget_ephemeral (path : string) (st : State) : State :=
  set_ephemeral_node
    (StdSet.erase operator_lt
       {| _path := path; _value := ""; _acl_vec := [] |}) st.

(** Modelled from the spec: zookeeper_client.cpp is not part of the
    sources.  The replay on a new session after an expiry: every auth
    entry, then every ephemeral registration with its stored value and
    ACL, then every watch of the three watch sets. *)
Definition replay (st : State) : list Request :=
  map zoo_add_auth (m_auths_set st)
  ++ map (λ n, zoo_acreate_ephemeral (_path n) (_value n) (_acl_vec n))
       (m_ephemeral_node st)
  ++ (map zoo_aget_watch (m_get_watch st)
      ++ map zoo_aget_children_watch (m_get_child_watch st)
      ++ map zoo_aexists_watch (m_exist_watch st)).

(** Modelled from the spec: zookeeper_client.cpp is not part of the
    sources.  One event: the new state and the requests it sends.  A
    fired watch leaves the bookkeeping as it is (firing history is not
    tracked); a fresh connect replays nothing. *)
Definition step (st : State) (e : Event) : State * list Request :=
  match e with
  | AConnect =>
      match session st with
      | Disconnected => (with_session (Connecting false) st, [])
      | _ => (st, [])
      end
  | OnConnected =>
      match session st with
      | Connecting true => (with_session Connected st, replay st)
      | Connecting false => (with_session Connected st, [])
      | _ => (st, [])
      end
  | OnSessionExpired =>
      match session st with
      | Connected => (with_session SessionExpired st, [])
      | _ => (st, [])
      end
  | Reconnect =>
      match session st with
      | SessionExpired => (with_session (Connecting true) st, [])
      | _ => (st, [])
      end
  | Close => (with_session Closed st, [])
  | AddDigestAuth digest_auth => (record_auth digest_auth st, [])
  | CreateEphemeral path value acl =>
      (record_ephemeral {| _path := path; _value := value; _acl_vec := acl |} st, [])
  | Delete path => (forget_ephemeral path st, [])
  | Get_watch path => (record_get_watch path st, [])
  | GetChildren_watch path => (record_get_child_watch path st, [])
  | Exists_watch path => (record_exist_watch path st, [])
  | WatchFired path => (st, [])
  end.

(** Modelled from the spec: a history of events, from the left; the
    requests are collected in the order they are sent. *)
Fixpoint run (st : State) (history : list Event) : State * list Request :=
  match history with
  | [] => (st, [])
  | e :: history' =>
      let '(st1, reqs1) := step st e in
      let '(st2, reqs2) := run st1 history' in
      (st2, reqs1 ++ reqs2)
  end.


End ZookeeperClient.

(** * Vocabulary of the properties *)

Import PebbleClient.

(** The outgoing calls made while the state went from [st] to [st']. *)
Definition new_effects (st st' : State) : list Effect :=
  drop (length (trace st)) (trace st').

(** The processors that were handed a message, in order. *)
Definition dispatched (tr : list Effect) : list ptr :=
  omap (λ e, match e with
             | IProcessor_OnMessage processor _ _ _ _ _ => Some processor
             | _ => None
             end) tr.

(** The number of error records that were written. *)
Definition errors_logged (tr : list Effect) : nat :=
  length (omap (λ e, match e with PLOG_ERROR _ _ => Some e | _ => None end) tr).

(** A call of the registry interface. *)
Inductive RegistryCall :=
| Call_Attach (handle : Z) (processor : ptr)
| Call_Detach (handle : Z).

Definition registry_call (st : State) (c : RegistryCall) : Z * State :=
  match c with
  | Call_Attach handle processor => Attach st handle processor
  | Call_Detach handle => Detach st handle
  end.

Definition registry_calls (st : State) (calls : list RegistryCall) : State :=
  foldl (λ st c, (registry_call st c).2) st calls.

(** [settles handle c target]: call [c] decides the dispatch target of
    [handle]: an [Attach] of a processor makes it the target, a [Detach]
    leaves the handle without one. *)
Definition settles (handle : Z) (c : RegistryCall) (target : option ptr) : Prop :=
  match c with
  | Call_Attach h processor =>
      h = handle ∧ processor ≠ NULL ∧ target = Some processor
  | Call_Detach h => h = handle ∧ target = None
  end.

(** [leaves handle c]: call [c] is about another handle, or is an [Attach]
    without a processor. *)
Definition leaves (handle : Z) (c : RegistryCall) : Prop :=
  match c with
  | Call_Attach h processor => h ≠ handle ∨ processor = NULL
  | Call_Detach h => h ≠ handle
  end.

(** A router's naming updates, delivered one after the other. *)
Definition deliveries (st : State) (router processor : ptr)
    (updates : list (list Z)) : State :=
  foldl (λ st handles, OnRouterAddressChanged st router handles processor)
    st updates.

(** The handles a router has delivered so far: the list recorded for it
    in [st], then the lists of [updates]. *)
Definition delivered_before (st : State) (router : ptr)
    (updates : list (list Z)) : list Z :=
  default [] (m_router_handle_map st !! router) ++ concat updates.

(** The indices of the non-null slots of an array, ascending, counted
    from [i]. *)
Fixpoint present_from (i : nat) (array : list ptr) : list nat :=
  match array with
  | [] => []
  | p :: array' =>
      (if decide (p ≠ NULL) then [i] else []) ++ present_from (S i) array'
  end.

(** The sub-step of [Update] a call belongs to. *)
Definition sub_step (e : Effect) : option nat :=
  match e with
  | Message_Update _ => Some 1%nat
  | Naming_Update _ _ => Some 2%nat
  | IProcessor_Update _ _ => Some 3%nat
  | Timer_Update _ => Some 4%nat
  | SessionMgr_CheckTimeout _ => Some 5%nat
  | StatManager_Update _ | Stat_AddResourceItem _ _ => Some 6%nat
  | _ => None
  end.

(** The number of events a sub-step call reports as processed. *)
Definition reported (e : Effect) : Z :=
  match e with
  | Message_Update n | Naming_Update _ n | IProcessor_Update _ n
  | Timer_Update n | SessionMgr_CheckTimeout n | StatManager_Update n => n
  | _ => 0
  end.

(** The events processed across all the sub-steps of a trace. *)
Definition events_processed (tr : list Effect) : Z :=
  foldr (λ e acc, reported e + acc) 0 tr.

(** The events that [Update] adds up: those of every sub-step but the
    processor ticks. *)
Definition events_counted (tr : list Effect) : Z :=
  foldr (λ e acc,
           match e with
           | IProcessor_Update _ _ => acc
           | _ => reported e + acc
           end) 0 tr.

(** The calls of one [Update], sub-step by sub-step. *)
Definition Update_calls (w : World) (st : State) : list Effect :=
  [Message_Update (Message_Update_ret w)]
  ++ map (λ i, Naming_Update i (Naming_Update_ret w i))
       (present_from 0 (m_naming_array st))
  ++ map (λ i, IProcessor_Update i (IProcessor_Update_ret w i))
       (present_from 0 (m_processor_array st))
  ++ (if decide (m_timer st ≠ NULL)
      then [Timer_Update (Timer_Update_ret w)] else [])
  ++ (if decide (m_session_mgr st ≠ NULL)
      then [SessionMgr_CheckTimeout (SessionMgr_CheckTimeout_ret w)] else [])
  ++ (if decide (m_stat_manager st ≠ NULL)
      then [StatManager_Update (StatManager_Update_ret w);
            Stat_AddResourceItem "_loop" (GetCurrentMS_now w - GetCurrentMS_old w)]
      else []).

(** The subordinate subsystems brought up by [Init], in start-up order. *)
Inductive Subsystem :=
| Sub_Timer
| Sub_CoSchedule
| Sub_Stat
| Sub_Transport
| Sub_RouterFactory.

(** Whether the initialization of a subsystem fails in world [w]. *)
Definition fails (w : World) (st : State) (s : Subsystem) : bool :=
  match s with
  | Sub_Timer => bool_decide (Timer_StartTimer_ret w < 0)
  | Sub_CoSchedule =>
      bool_decide (m_coroutine_schedule st = NULL ∧ CoroutineSchedule_Init_ret w ≠ 0)
  | Sub_Stat => bool_decide (StatManager_Init_ret w ≠ 0)
  | Sub_Transport => bool_decide (Message_Init_ret w ≠ 0)
  | Sub_RouterFactory => bool_decide (SetRouterFactory_ret w ≠ 0)
  end.

Definition subsystems : list Subsystem :=
  [Sub_Timer; Sub_CoSchedule; Sub_Stat; Sub_Transport; Sub_RouterFactory].

(** A world in which the collaborators succeed and report no event, but
    for four results that are left open: what a processor tick reports,
    and the status of the timer start, of the statistics start-up and of a
    router's initialization. *)
Definition world_of (processor_tick start_timer stat_init router_init : Z)
    : World :=
  {| Message_Update_ret := 0;
     Naming_Update_ret := λ _, 0;
     IProcessor_Update_ret := λ _, processor_tick;
     Timer_Update_ret := 0;
     SessionMgr_CheckTimeout_ret := 0;
     StatManager_Update_ret := 0;
     GetCurrentMS_old := 1000;
     GetCurrentMS_now := 1000;
     Timer_StartTimer_ret := start_timer;
     Timer_GetLastError := "";
     CoroutineSchedule_Init_ret := 0;
     StatManager_Init_ret := stat_init;
     Message_Init_ret := 0;
     SetRouterFactory_ret := 0;
     GetRouterFactory := λ _, 100;
     GetNamingFactory := λ _, 200;
     RouterFactory_GetRouter_ret := λ _ _, 300;
     NamingFactory_GetNaming_ret := λ _, 400;
     Router_Init_ret := λ _ _, router_init;
     GetNaming_default_type := 0 |}.

Definition quiet_world : World := world_of 0 1 0 0.

(** A freshly constructed client with two naming slots and four protocol
    slots. *)
Definition fresh_client : State := PebbleClient 2 4.

(** Several outgoing calls, in order. *)
Definition emit_all (es : list Effect) (st : State) : State :=
  foldl (λ st e, emit e st) st es.

(** The sum of [f] over a list of indices. *)
Definition sum_over (f : nat → Z) (l : list nat) : Z :=
  foldr (λ i acc, f i + acc) 0 l.

(** The count that one [Update] accumulates, before it is cut to 32 bits. *)
Definition Update_count (w : World) (st : State) : Z :=
  Message_Update_ret w
  + sum_over (Naming_Update_ret w) (present_from 0 (m_naming_array st))
  + (if decide (m_timer st ≠ NULL) then Timer_Update_ret w else 0)
  + (if decide (m_session_mgr st ≠ NULL) then SessionMgr_CheckTimeout_ret w else 0)
  + (if decide (m_stat_manager st ≠ NULL) then StatManager_Update_ret w else 0).

(** A client that has created one RPC processor (slot 1 of the protocol
    array), as [GetPebbleRpc] leaves it. *)
Definition client_with_processor : State :=
  {| m_coroutine_schedule := NULL;
     m_stat_manager := NULL;
     m_timer := NULL;
     m_stat_timer_ms := 1000;
     m_session_mgr := NULL;
     m_naming_array := [NULL; NULL];
     m_processor_array := [NULL; 500; NULL; NULL];
     m_processor_map := ∅;
     m_router_map := ∅;
     m_router_handle_map := ∅;
     m_last_msg_info := {| _self_handle := 0; _remote_handle := 0 |};
     next_object := 501;
     trace := [] |}.

(** A client that holds a timer (object 500) and nothing else. *)
Definition client_with_timer : State :=
  {| m_coroutine_schedule := NULL;
     m_stat_manager := NULL;
     m_timer := 500;
     m_stat_timer_ms := 1000;
     m_session_mgr := NULL;
     m_naming_array := [NULL; NULL];
     m_processor_array := [NULL; NULL; NULL; NULL];
     m_processor_map := ∅;
     m_router_map := ∅;
     m_router_handle_map := ∅;
     m_last_msg_info := {| _self_handle := 0; _remote_handle := 0 |};
     next_object := 501;
     trace := [] |}.

(** The quiet world, but for the timer, whose [Update] fires one timer. *)
Definition timer_fires_world : World :=
  {| Message_Update_ret := 0;
     Naming_Update_ret := λ _, 0;
     IProcessor_Update_ret := λ _, 0;
     Timer_Update_ret := 1;
     SessionMgr_CheckTimeout_ret := 0;
     StatManager_Update_ret := 0;
     GetCurrentMS_old := 1000;
     GetCurrentMS_now := 1000;
     Timer_StartTimer_ret := 1;
     Timer_GetLastError := "";
     CoroutineSchedule_Init_ret := 0;
     StatManager_Init_ret := 0;
     Message_Init_ret := 0;
     SetRouterFactory_ret := 0;
     GetRouterFactory := λ _, 100;
     GetNamingFactory := λ _, 200;
     RouterFactory_GetRouter_ret := λ _ _, 300;
     NamingFactory_GetNaming_ret := λ _, 400;
     Router_Init_ret := λ _ _, 0;
     GetNaming_default_type := 0 |}.

(** The state a fresh client is left in by its first
    [GetRouter("svc-a", 0)] in world [w]. *)
Definition client_after_GetRouter (w : World) : State :=
  match GetRouter w fresh_client "svc-a" 0 with
  | Some (_, st) => st
  | None => fresh_client
  end.



(** * The rest of the client *)

Module PebbleClientRest.


Definition set_processor_array (f : list ptr → list ptr) (st : State) : State :=
  {| m_coroutine_schedule := m_coroutine_schedule st;
     m_stat_manager := m_stat_manager st;
     m_timer := m_timer st;
     m_stat_timer_ms := m_stat_timer_ms st;
     m_session_mgr := m_session_mgr st;
     m_naming_array := m_naming_array st;
     m_processor_array := f (m_processor_array st);
     m_processor_map := m_processor_map st;
     m_router_map := m_router_map st;
     m_router_handle_map := m_router_handle_map st;
     m_last_msg_info := m_last_msg_info st;
     next_object := next_object st;
     trace := trace st |}.

(** What further collaborators hand back: the cooperative scheduler, the
    statistics manager and the processors' resource reports (an
    [unordered_map], given in its iteration order). *)
Record Runtime := {
  CoroutineSchedule_NewTask_ret : ptr;
  CommonCoroutineTask_Start_ret : Z;
  CoroutineSchedule_Size_ret : Z;
  IProcessor_GetResourceUsed_ret : nat → list (string * Z);
  StatManager_GetStat_ret : ptr
}.


(** [Stat* PebbleClient::GetStat()] *)
Definition GetStat (rt : Runtime) (st : State) : ptr :=
  if decide (m_stat_manager st ≠ NULL) then StatManager_GetStat_ret rt
  else NULL.

(** [void PebbleClient::StatCoroutine(Stat* stat)]: calls through [stat]
    and through [m_coroutine_schedule]; [None] when one of them is null. *)
Definition StatCoroutine (rt : Runtime) (st : State) (stat : ptr) : option State :=
  if decide (stat = NULL ∨ m_coroutine_schedule st = NULL) then None
  else Some (emit (Stat_AddResourceItem "_coroutine"
                     (CoroutineSchedule_Size_ret rt)) st).

(** The inner loop of [StatProcessorResource]: one [AddResourceItem] per
    reported item. *)
Definition add_resource_items (stat : ptr) (items : list (string * Z))
    (o : option State) : option State :=
  foldl (λ o item,
           st ← o;
           if decide (stat = NULL) then None
           else Some (emit (Stat_AddResourceItem item.1 item.2) st))
    o items.

(** [void PebbleClient::StatProcessorResource(Stat* stat)] *)
Definition StatProcessorResource (rt : Runtime) (st : State) (stat : ptr)
    : option State :=
  for_each_present
    (λ i o, add_resource_items stat (IProcessor_GetResourceUsed_ret rt i) o)
    0%nat (m_processor_array st) (Some st).

(** [int32_t PebbleClient::OnStatTimeout()]: the callback of the stat
    timer; [None] when it calls through a null pointer. *)
Definition OnStatTimeout (rt : Runtime) (st : State) : option (Z * State) :=
  if decide (m_stat_manager st = NULL) then None
  else
    let stat := StatManager_GetStat_ret rt in
    st ← StatCoroutine rt st stat;
    st ← StatProcessorResource rt st stat;
    Some (m_stat_timer_ms st, st).

(** Calls to the cooperative scheduler and to the RPC objects. *)
Inductive Call :=
| CoroutineSchedule_NewTask (task : ptr)
| CommonCoroutineTask_Init (task routine : ptr)
| CommonCoroutineTask_Start (task : ptr) (is_immediately : bool) (coid : Z)
| RpcEventHandler_Init (handler stat_manager : ptr)
| PebbleRpc_new (rpc : ptr) (rpc_code_type : Z) (coroutine_schedule : ptr)
| PebbleRpc_SetSendFunction (rpc : ptr)
| PebbleRpc_SetEventHandler (rpc handler : ptr)
| PLOG_FATAL (fmt : string) (args : list LogArg).

(** [int32_t PebbleClient::MakeCoroutine(const cxx::function<void()>& routine)]:
    no member is written; the result is the status and the outgoing calls
    in order.  An empty [routine] is [NULL]. *)
Definition MakeCoroutine (rt : Runtime) (st : State) (routine : ptr)
    : Z * list (Effect + Call) :=
  if decide (m_coroutine_schedule st = NULL) then
    (-1, [inl (PLOG_ERROR "coroutine schedule is null" [])])
  else if decide (routine = NULL) then
    (-1, [inl (PLOG_ERROR "task is null" [])])
  else
    let task := CoroutineSchedule_NewTask_ret rt in
    if decide (NULL = task) then
      (-1, [inr (CoroutineSchedule_NewTask task);
            inl (PLOG_ERROR "new co task failed" [])])
    else
      let coid := CommonCoroutineTask_Start_ret rt in
      (if decide (coid < 0) then -1 else 0,
       [inr (CoroutineSchedule_NewTask task);
        inr (CommonCoroutineTask_Init task routine);
        inr (CommonCoroutineTask_Start task true coid)]).

(** The enumerators of [ProtocolType] and [CodeType] that [GetPebbleRpc]
    names (their headers are not part of the sources). *)
Record Enumerators := {
  kPEBBLE_RPC_BINARY : Z;
  kPEBBLE_RPC_JSON : Z;
  kPEBBLE_RPC_PROTOBUF : Z;
  kCODE_BINARY : Z;
  kCODE_JSON : Z;
  kCODE_PB : Z;
  kCODE_BUTT : Z
}.

(** The client with the member [m_rpc_event_handler]. *)
Record RpcClient := {
  base : State;
  m_rpc_event_handler : ptr
}.

(** The [switch] of [GetPebbleRpc]; [None] is the [default] label. *)
Definition rpc_code_type_of (k : Enumerators) (protocol_type : Z) : option Z :=
  if decide (protocol_type = kPEBBLE_RPC_BINARY k) then Some (kCODE_BINARY k)
  else if decide (protocol_type = kPEBBLE_RPC_JSON k) then Some (kCODE_JSON k)
  else if decide (protocol_type = kPEBBLE_RPC_PROTOBUF k) then Some (kCODE_PB k)
  else None.

(** [PebbleRpc* PebbleClient::GetPebbleRpc(ProtocolType protocol_type)].
    [None] is an index outside [m_processor_array]; the [dynamic_cast] of a
    slot is the slot itself, the function being the only writer of the
    array. *)
Definition GetPebbleRpc (k : Enumerators) (c : RpcClient) (protocol_type : Z)
    : option (ptr * RpcClient * list (Effect + Call)) :=
  if decide (protocol_type < kPEBBLE_RPC_BINARY k
             ∨ protocol_type > kPEBBLE_RPC_PROTOBUF k) then
    Some (NULL, c,
          [inl (PLOG_ERROR "param protocol_type invalid(%d)"
                  [ArgInt protocol_type])])
  else if decide (protocol_type < 0) then None
  else
    p ← m_processor_array (base c) !! Z.to_nat protocol_type;
    if decide (p ≠ NULL) then Some (p, c, [])
    else
      let '(c, out) :=
        if decide (m_rpc_event_handler c = NULL) then
          let '(h, st) := new (base c) in
          ({| base := st; m_rpc_event_handler := h |},
           [inr (RpcEventHandler_Init h (m_stat_manager st))])
        else (c, []) in
      match rpc_code_type_of k protocol_type with
      | None =>
          Some (NULL, c,
                out ++ [inr (PLOG_FATAL "unsupport protocol type %d"
                               [ArgInt protocol_type])])
      | Some rpc_code_type =>
          let '(rpc_instance, st) := new (base c) in
          Some (rpc_instance,
                {| base := set_processor_array
                             (<[Z.to_nat protocol_type := rpc_instance]>) st;
                   m_rpc_event_handler := m_rpc_event_handler c |},
                out ++ [inr (PebbleRpc_new rpc_instance rpc_code_type
                               (m_coroutine_schedule st));
                        inr (PebbleRpc_SetSendFunction rpc_instance);
                        inr (PebbleRpc_SetEventHandler rpc_instance
                               (m_rpc_event_handler c))])
      end.


End PebbleClientRest.

Import PebbleClientRest.

(** A runtime in which the scheduler hands out task 700 and starts it as
    coroutine 1. *)
Definition quiet_runtime : Runtime :=
  {| CoroutineSchedule_NewTask_ret := 700;
     CommonCoroutineTask_Start_ret := 1;
     CoroutineSchedule_Size_ret := 0;
     IProcessor_GetResourceUsed_ret := λ _, [];
     StatManager_GetStat_ret := 800 |}.

(** Enumerators numbered as consecutive [enum] constants. *)
Definition enumerators : Enumerators :=
  {| kPEBBLE_RPC_BINARY := 1;
     kPEBBLE_RPC_JSON := 2;
     kPEBBLE_RPC_PROTOBUF := 3;
     kCODE_BINARY := 0;
     kCODE_JSON := 1;
     kCODE_PB := 2;
     kCODE_BUTT := 3 |}.

(** A world in which no factory is registered. *)
Definition bare_world : World :=
  {| Message_Update_ret := 0;
     Naming_Update_ret := λ _, 0;
     IProcessor_Update_ret := λ _, 0;
     Timer_Update_ret := 0;
     SessionMgr_CheckTimeout_ret := 0;
     StatManager_Update_ret := 0;
     GetCurrentMS_old := 1000;
     GetCurrentMS_now := 1000;
     Timer_StartTimer_ret := 1;
     Timer_GetLastError := "";
     CoroutineSchedule_Init_ret := 0;
     StatManager_Init_ret := 0;
     Message_Init_ret := 0;
     SetRouterFactory_ret := 0;
     GetRouterFactory := λ _, NULL;
     GetNamingFactory := λ _, NULL;
     RouterFactory_GetRouter_ret := λ _ _, NULL;
     NamingFactory_GetNaming_ret := λ _, NULL;
     Router_Init_ret := λ _ _, 0;
     GetNaming_default_type := 0 |}.

(** A world in which the scheduler does not come up. *)
Definition scheduler_fails_world : World :=
  {| Message_Update_ret := 0;
     Naming_Update_ret := λ _, 0;
     IProcessor_Update_ret := λ _, 0;
     Timer_Update_ret := 0;
     SessionMgr_CheckTimeout_ret := 0;
     StatManager_Update_ret := 0;
     GetCurrentMS_old := 1000;
     GetCurrentMS_now := 1000;
     Timer_StartTimer_ret := 1;
     Timer_GetLastError := "";
     CoroutineSchedule_Init_ret := -1;
     StatManager_Init_ret := 0;
     Message_Init_ret := 0;
     SetRouterFactory_ret := 0;
     GetRouterFactory := λ _, 100;
     GetNamingFactory := λ _, 200;
     RouterFactory_GetRouter_ret := λ _ _, 300;
     NamingFactory_GetNaming_ret := λ _, 400;
     Router_Init_ret := λ _ _, 0;
     GetNaming_default_type := 0 |}.

(** [enum ZookeeperErrorCode] and the value of each enumerator. *)
Inductive ZookeeperErrorCode :=
| kZK_OK
| kZK_SYSTEMERROR
| kZK_RUNTIMEINCONSISTENCY
| kZK_DATAINCONSISTENCY
| kZK_CONNECTIONLOSS
| kZK_MARSHALLINGERROR
| kZK_UNIMPLEMENTED
| kZK_OPERATIONTIMEOUT
| kZK_BADARGUMENTS
| kZK_INVALIDSTATE
| kZK_DNSFAILURE
| kZK_APIERROR
| kZK_NONODE
| kZK_NOAUTH
| kZK_BADVERSION
| kZK_NOCHILDRENFOREPHEMERALS
| kZK_NODEEXISTS
| kZK_NOTEMPTY
| kZK_SESSIONEXPIRED
| kZK_INVALIDCALLBACK
| kZK_INVALIDACL
| kZK_AUTHFAILED
| kZK_CLOSING
| kZK_NOTHING
| kZK_SESSIONMOVED
| kZK_NOQUOTA
| kZK_SERVEROVERLOAD
| kZK_ENCRYPTFAILED.

Definition ZookeeperErrorCode_value (e : ZookeeperErrorCode) : Z :=
  match e with
  | kZK_OK => 0
  | kZK_SYSTEMERROR => (-1)
  | kZK_RUNTIMEINCONSISTENCY => (-2)
  | kZK_DATAINCONSISTENCY => (-3)
  | kZK_CONNECTIONLOSS => (-4)
  | kZK_MARSHALLINGERROR => (-5)
  | kZK_UNIMPLEMENTED => (-6)
  | kZK_OPERATIONTIMEOUT => (-7)
  | kZK_BADARGUMENTS => (-8)
  | kZK_INVALIDSTATE => (-9)
  | kZK_DNSFAILURE => (-10)
  | kZK_APIERROR => (-100)
  | kZK_NONODE => (-101)
  | kZK_NOAUTH => (-102)
  | kZK_BADVERSION => (-103)
  | kZK_NOCHILDRENFOREPHEMERALS => (-108)
  | kZK_NODEEXISTS => (-110)
  | kZK_NOTEMPTY => (-111)
  | kZK_SESSIONEXPIRED => (-112)
  | kZK_INVALIDCALLBACK => (-113)
  | kZK_INVALIDACL => (-114)
  | kZK_AUTHFAILED => (-115)
  | kZK_CLOSING => (-116)
  | kZK_NOTHING => (-117)
  | kZK_SESSIONMOVED => (-118)
  | kZK_NOQUOTA => (-119)
  | kZK_SERVEROVERLOAD => (-120)
  | kZK_ENCRYPTFAILED => (-200)
  end.

(** A client before its first [GetPebbleRpc]. *)
Definition fresh_rpc_client : RpcClient :=
  {| base := fresh_client; m_rpc_event_handler := NULL |}.

(** The routers a trace has the router factories make: per
    [RouterFactory::GetRouter] call, the name asked for and the router
    handed back. *)
Definition routers_made (tr : list Effect) : list (string * ptr) :=
  omap (λ e, match e with
             | RouterFactory_GetRouter _ name router => Some (name, router)
             | _ => None
             end) tr.

(** * The processor registry *)

Lemma new_effects_emit st e : new_effects st (emit e st) = [e].
Proof. unfold new_effects, emit; simpl. apply drop_app_length. Qed.

Lemma new_effects_same st st' : trace st' = trace st → new_effects st st' = [].
Proof. intros E. unfold new_effects. rewrite E. apply drop_all. Qed.

Lemma Attach_processor st handle processor :
  processor ≠ NULL →
  Attach st handle processor = (0, set_processor_map (<[handle := processor]>) st).
Proof. intros Hp. unfold Attach. case_decide; [congruence | done]. Qed.

Lemma Attach_NULL st handle :
  Attach st handle NULL = (-1, emit (PLOG_ERROR "param processor is NULL" []) st).
Proof. reflexivity. Qed.

(** C9.  Attach validates its argument: with a null processor it returns
    the negative status -1, writes one error record and leaves the whole
    registry as it was; with a processor it returns 0 and the registry
    maps the handle to that processor, every other handle keeping its
    entry. *)
Theorem Attach_argument_validation st handle processor :
  ((Attach st handle NULL).1 = -1
   ∧ (Attach st handle NULL).1 < 0
   ∧ m_processor_map (Attach st handle NULL).2 = m_processor_map st
   ∧ errors_logged (new_effects st (Attach st handle NULL).2) = 1%nat)
  ∧ (processor ≠ NULL →
     (Attach st handle processor).1 = 0
     ∧ m_processor_map (Attach st handle processor).2 !! handle = Some processor
     ∧ (∀ h, h ≠ handle →
          m_processor_map (Attach st handle processor).2 !! h
          = m_processor_map st !! h)
     ∧ new_effects st (Attach st handle processor).2 = []).
Proof.
  split.
  - rewrite Attach_NULL; simpl. rewrite new_effects_emit. repeat split; lia.
  - intros Hp. rewrite Attach_processor by done; simpl.
    split; [done|]. split; [apply lookup_insert_eq|].
    split; [|by apply new_effects_same].
    intros h Hh. by apply lookup_insert_ne.
Qed.

Lemma Attach_argument_validation_witness :
  (7 ≠ NULL)
  ∧ (Attach fresh_client 5 7).1 = 0
  ∧ m_processor_map (Attach fresh_client 5 7).2 !! 5 = Some 7.
Proof.
  split; [discriminate|].
  destruct (Attach_argument_validation fresh_client 5 7) as [_ H].
  destruct H as (H1 & H2 & _); [discriminate|]. exact (conj H1 H2).
Defined.

(** The outgoing calls of one [OnMessage]. *)
Lemma OnMessage_effects st msg msg_len info :
  new_effects st (OnMessage st msg msg_len info).2
  = match m_processor_map st !! _self_handle info with
    | Some processor =>
        [IProcessor_OnMessage processor (_remote_handle (m_last_msg_info st))
           msg msg_len info 0]
    | None =>
        [PLOG_ERROR "handle(%ld) not attach a processor remote(%ld)"
           [ArgInt (_self_handle info); ArgInt (_remote_handle info)]]
    end.
Proof.
  unfold OnMessage.
  destruct (m_processor_map st !! _self_handle info) as [p|]; simpl;
    apply new_effects_emit.
Qed.

(** C8.  The message callback looks the handle up: when a processor is
    attached, the one outgoing call is an OnMessage on that processor;
    when none is, no processor is called and the message is dropped with
    exactly one error record.  The registry is not changed. *)
Theorem OnMessage_dispatch st msg msg_len info :
  (OnMessage st msg msg_len info).1 = 1
  ∧ m_processor_map (OnMessage st msg msg_len info).2 = m_processor_map st
  ∧ match m_processor_map st !! _self_handle info with
    | Some processor =>
        new_effects st (OnMessage st msg msg_len info).2
        = [IProcessor_OnMessage processor (_remote_handle (m_last_msg_info st))
             msg msg_len info 0]
        ∧ dispatched (new_effects st (OnMessage st msg msg_len info).2) = [processor]
        ∧ errors_logged (new_effects st (OnMessage st msg msg_len info).2) = 0%nat
    | None =>
        dispatched (new_effects st (OnMessage st msg msg_len info).2) = []
        ∧ errors_logged (new_effects st (OnMessage st msg msg_len info).2) = 1%nat
    end.
Proof.
  rewrite OnMessage_effects. unfold OnMessage.
  destruct (m_processor_map st !! _self_handle info) as [p|]; done.
Qed.

Lemma registry_call_leaves st c handle :
  leaves handle c →
  m_processor_map (registry_call st c).2 !! handle = m_processor_map st !! handle.
Proof.
  destruct c as [h p|h]; simpl; intros H.
  - unfold Attach. case_decide; simpl; [done|].
    destruct H as [H|H]; [by apply lookup_insert_ne | congruence].
  - by apply lookup_delete_ne.
Qed.

Lemma registry_calls_leave st calls handle :
  Forall (leaves handle) calls →
  m_processor_map (registry_calls st calls) !! handle = m_processor_map st !! handle.
Proof.
  intros H. revert st.
  induction H as [|c calls Hc _ IH]; intros st; [done|].
  unfold registry_calls in *; simpl. rewrite IH. by apply registry_call_leaves.
Qed.

Lemma registry_call_settles st c handle target :
  settles handle c target →
  m_processor_map (registry_call st c).2 !! handle = target.
Proof.
  destruct c as [h p|h]; simpl.
  - intros (-> & Hp & ->). rewrite Attach_processor by done. apply lookup_insert_eq.
  - intros (-> & ->). apply lookup_delete_eq.
Qed.

(** C3.  Last write wins.  Take any state and any sequence of registry
    calls in which call [c] is the last one that decides [handle] (the
    calls after it are about other handles, or are Attach calls without a
    processor, which record nothing).  If [c] is an Attach of a processor,
    a message for the handle is dispatched to that processor and to no
    other, whatever was attached before, and that Attach returned 0; if
    [c] is a Detach, the message reaches no processor. *)
Theorem registry_last_write_wins st before c after handle target msg msg_len info :
  settles handle c target →
  Forall (leaves handle) after →
  _self_handle info = handle →
  m_processor_map (registry_calls st (before ++ c :: after)) !! handle = target
  ∧ dispatched
      (new_effects (registry_calls st (before ++ c :: after))
         (OnMessage (registry_calls st (before ++ c :: after)) msg msg_len info).2)
    = match target with Some processor => [processor] | None => [] end
  ∧ (∀ processor, c = Call_Attach handle processor →
       (registry_call (registry_calls st before) c).1 = 0).
Proof.
  intros Hc Hafter Hinfo.
  assert (Hlook :
    m_processor_map (registry_calls st (before ++ c :: after)) !! handle = target).
  { unfold registry_calls. rewrite foldl_app; simpl.
    fold (registry_calls (registry_call (foldl (λ st c, (registry_call st c).2) st before) c).2 after).
    rewrite registry_calls_leave by done. by apply registry_call_settles. }
  split; [done|]. split.
  - rewrite OnMessage_effects, Hinfo, Hlook. by destruct target.
  - intros p ->. simpl in Hc. destruct Hc as (_ & Hp & _).
    simpl. by rewrite Attach_processor.
Qed.

Lemma registry_last_write_wins_witness :
  settles 5 (Call_Attach 5 22) (Some 22)
  ∧ Forall (leaves 5) [Call_Attach 6 33; Call_Attach 5 NULL]
  ∧ dispatched
      (new_effects
         (registry_calls fresh_client
            ([Call_Attach 5 11] ++ Call_Attach 5 22 :: [Call_Attach 6 33; Call_Attach 5 NULL]))
         (OnMessage
            (registry_calls fresh_client
               ([Call_Attach 5 11] ++ Call_Attach 5 22 :: [Call_Attach 6 33; Call_Attach 5 NULL]))
            [104; 105] 2 {| _self_handle := 5; _remote_handle := 9 |}).2)
    = [22].
Proof.
  assert (H1 : settles 5 (Call_Attach 5 22) (Some 22)).
  { simpl. repeat split; discriminate. }
  assert (H2 : Forall (leaves 5) [Call_Attach 6 33; Call_Attach 5 NULL]).
  { apply Forall_cons_2; [left; discriminate|].
    apply Forall_cons_2; [right; reflexivity | apply Forall_nil_2]. }
  split; [exact H1|]. split; [exact H2|].
  exact (proj1 (proj2 (registry_last_write_wins fresh_client [Call_Attach 5 11]
    (Call_Attach 5 22) [Call_Attach 6 33; Call_Attach 5 NULL] 5 (Some 22)
    [104; 105] 2 {| _self_handle := 5; _remote_handle := 9 |} H1 H2 eq_refl))).
Defined.

(** * Router reconciliation *)

Lemma attach_each_processor_map st handles processor :
  processor ≠ NULL →
  m_processor_map (attach_each st handles processor)
  = foldl (λ m h, <[h := processor]> m) (m_processor_map st) handles.
Proof.
  intros Hp. revert st. unfold attach_each.
  induction handles as [|h handles IH]; intros st; simpl; [done|].
  rewrite IH. by rewrite Attach_processor.
Qed.

Lemma attach_each_router_handle_map st handles processor :
  m_router_handle_map (attach_each st handles processor) = m_router_handle_map st.
Proof.
  revert st. unfold attach_each.
  induction handles as [|h handles IH]; intros st; simpl; [done|].
  rewrite IH. unfold Attach. by case_decide.
Qed.

Lemma detach_each_processor_map st handles :
  m_processor_map (detach_each st handles)
  = foldl (λ m h, delete h m) (m_processor_map st) handles.
Proof.
  revert st. unfold detach_each.
  induction handles as [|h handles IH]; intros st; simpl; [done|].
  by rewrite IH.
Qed.

Lemma detach_each_router_handle_map st handles :
  m_router_handle_map (detach_each st handles) = m_router_handle_map st.
Proof.
  revert st. unfold detach_each.
  induction handles as [|h handles IH]; intros st; simpl; [done|].
  by rewrite IH.
Qed.

Lemma lookup_insert_each (m : gmap Z Z) handles processor h :
  foldl (λ m h, <[h := processor]> m) m handles !! h
  = if decide (h ∈ handles) then Some processor else m !! h.
Proof.
  revert m. induction handles as [|h0 handles IH]; intros m; simpl; [done|].
  rewrite IH. destruct (decide (h ∈ handles)) as [Hin|Hnin].
    + rewrite decide_True; [done | by right].
    + destruct (decide (h = h0)) as [->|Hne].
      * rewrite decide_True by left. apply lookup_insert_eq.
      * rewrite decide_False.
        -- by apply lookup_insert_ne.
        -- intros [?|?]%elem_of_cons; done.
Qed.

Lemma lookup_delete_each (m : gmap Z Z) handles h :
  foldl (λ m h, delete h m) m handles !! h
  = if decide (h ∈ handles) then None else m !! h.
Proof.
  revert m. induction handles as [|h0 handles IH]; intros m; simpl; [done|].
  rewrite IH. destruct (decide (h ∈ handles)) as [Hin|Hnin].
    + rewrite decide_True; [done | by right].
    + destruct (decide (h = h0)) as [->|Hne].
      * rewrite decide_True by left. apply lookup_delete_eq.
      * rewrite decide_False.
        -- by apply lookup_delete_ne.
        -- intros [?|?]%elem_of_cons; done.
Qed.

(** One delivery, entry by entry. *)
Lemma OnRouterAddressChanged_lookup st router handles processor h :
  processor ≠ NULL →
  m_processor_map (OnRouterAddressChanged st router handles processor) !! h
  = if decide (h ∈ handles) then Some processor
    else if decide (h ∈ default [] (m_router_handle_map st !! router)) then None
    else m_processor_map st !! h.
Proof.
  intros Hp. unfold OnRouterAddressChanged.
  destruct (m_router_handle_map st !! router) as [old|]; simpl.
  - rewrite attach_each_processor_map by done.
    rewrite lookup_insert_each, detach_each_processor_map, lookup_delete_each.
    done.
  - rewrite attach_each_processor_map by done.
    by rewrite lookup_insert_each.
Qed.

Lemma OnRouterAddressChanged_recorded st router handles processor :
  m_router_handle_map (OnRouterAddressChanged st router handles processor)
  = <[router := handles]> (m_router_handle_map st).
Proof.
  unfold OnRouterAddressChanged.
  destruct (m_router_handle_map st !! router) as [old|]; simpl;
    rewrite attach_each_router_handle_map, ?detach_each_router_handle_map; done.
Qed.

(** A sequence of deliveries, entry by entry. *)
Lemma deliveries_lookup st router processor earlier handles h :
  processor ≠ NULL →
  m_processor_map (deliveries st router processor (earlier ++ [handles])) !! h
  = if decide (h ∈ handles) then Some processor
    else if decide (h ∈ delivered_before st router earlier) then None
    else m_processor_map st !! h.
Proof.
  intros Hp. revert st.
  induction earlier as [|S0 earlier IH]; intros st.
  - unfold deliveries, delivered_before; simpl.
    rewrite OnRouterAddressChanged_lookup by done. by rewrite app_nil_r.
  - unfold deliveries in *; simpl. rewrite IH.
    destruct (decide (h ∈ handles)); [done|].
    unfold delivered_before; simpl.
    rewrite OnRouterAddressChanged_recorded, lookup_insert_eq; simpl.
    rewrite OnRouterAddressChanged_lookup by done.
    repeat case_decide; try done; exfalso;
      repeat match goal with
             | H : context [_ ∈ _ ++ _] |- _ => rewrite elem_of_app in H
             end; tauto.
Qed.

Lemma deliveries_recorded st router processor earlier handles :
  m_router_handle_map (deliveries st router processor (earlier ++ [handles])) !! router
  = Some handles.
Proof.
  unfold deliveries. rewrite foldl_snoc.
  rewrite OnRouterAddressChanged_recorded. apply lookup_insert_eq.
Qed.

(** The guard of the only place that binds [OnRouterAddressChanged]: a
    binding handed to a router never carries a null processor. *)
Lemma Attach_router_binds st router processor bound_router bound_processor r :
  Router_SetOnAddressChanged r bound_router bound_processor
    ∈ new_effects st (Attach_router st router processor).2 →
  (Attach_router st router processor).1 = 0
  ∧ r = router ∧ bound_router = router
  ∧ bound_processor = processor ∧ bound_processor ≠ NULL.
Proof.
  unfold Attach_router. case_decide as H; simpl; rewrite new_effects_emit.
  - intros Hin. apply list_elem_of_singleton in Hin. discriminate.
  - intros Hin. apply list_elem_of_singleton in Hin.
    injection Hin as -> -> ->. repeat split; try done.
    intros ->. apply H. by right.
Qed.

(** C1.  Full replace.  For every router with a processor, every state
    and every sequence of naming updates ending with the handle list [S]:
    afterwards every handle of [S] is mapped to the router's processor;
    every handle outside [S] that the router delivered before (recorded
    for it in the starting state, or delivered by an earlier update of the
    sequence) has no entry; every other handle is as it was; and [S] is
    recorded as the router's delivered list.  On a first delivery (nothing
    recorded for the router) the registry is the old one with the handles
    of [S] inserted: nothing is removed. *)
Theorem router_full_replace st router processor earlier S :
  processor ≠ NULL →
  (∀ h, h ∈ S →
     m_processor_map (deliveries st router processor (earlier ++ [S])) !! h
     = Some processor)
  ∧ (∀ h, h ∉ S → h ∈ delivered_before st router earlier →
       m_processor_map (deliveries st router processor (earlier ++ [S])) !! h
       = None)
  ∧ (∀ h, h ∉ S → h ∉ delivered_before st router earlier →
       m_processor_map (deliveries st router processor (earlier ++ [S])) !! h
       = m_processor_map st !! h)
  ∧ m_router_handle_map (deliveries st router processor (earlier ++ [S])) !! router
    = Some S
  ∧ (m_router_handle_map st !! router = None →
     m_processor_map (OnRouterAddressChanged st router S processor)
     = foldl (λ m h, <[h := processor]> m) (m_processor_map st) S
     ∧ ∀ h, is_Some (m_processor_map st !! h) →
            is_Some (m_processor_map (OnRouterAddressChanged st router S processor) !! h)).
Proof.
  intros Hp. repeat split.
  - intros h Hin. rewrite deliveries_lookup by done. by rewrite decide_True.
  - intros h Hnin Hold. rewrite deliveries_lookup by done.
    rewrite decide_False by done. by rewrite decide_True.
  - intros h Hnin Hold. rewrite deliveries_lookup by done.
    rewrite decide_False by done. by rewrite decide_False.
  - apply deliveries_recorded.
  - unfold OnRouterAddressChanged. rewrite H; simpl.
    by apply attach_each_processor_map.
  - intros h Hsome. rewrite OnRouterAddressChanged_lookup by done.
    rewrite H; simpl. by case_decide.
Qed.

Lemma router_full_replace_witness :
  (7 ≠ NULL)
  ∧ m_processor_map (deliveries fresh_client 300 7 ([[1; 2; 3]; [2; 4]] ++ [[4; 5]])) !! 4
    = Some 7
  ∧ m_processor_map (deliveries fresh_client 300 7 ([[1; 2; 3]; [2; 4]] ++ [[4; 5]])) !! 2
    = None.
Proof.
  assert (Hp : 7 ≠ NULL) by discriminate.
  destruct (router_full_replace fresh_client 300 7 [[1; 2; 3]; [2; 4]] [4; 5] Hp)
    as (H1 & H2 & _).
  split; [exact Hp|]. split.
  - apply H1. apply elem_of_cons. by left.
  - apply H2.
    + intros [?|[?|?%not_elem_of_nil]%elem_of_cons]%elem_of_cons; done.
    + unfold delivered_before; simpl. do 1 apply list_elem_of_further.
      apply list_elem_of_here.
Defined.

(** * The update loop *)

Lemma wrap32_add_l a b : wrap32 (wrap32 a + b) = wrap32 (a + b).
Proof.
  unfold wrap32. f_equal.
  replace ((a + 2 ^ 31) mod 2 ^ 32 - 2 ^ 31 + b + 2 ^ 31)
    with ((a + 2 ^ 31) mod 2 ^ 32 + b) by lia.
  rewrite Zplus_mod_idemp_l. f_equal. lia.
Qed.

Lemma wrap32_in_range z : in_int32 z → wrap32 z = z.
Proof.
  unfold wrap32, in_int32. intros H. rewrite Z.mod_small; lia.
Qed.

Lemma emit_all_app es1 es2 st :
  emit_all (es1 ++ es2) st = emit_all es2 (emit_all es1 st).
Proof. unfold emit_all. apply foldl_app. Qed.

Lemma trace_emit_all es st : trace (emit_all es st) = trace st ++ es.
Proof.
  revert st. induction es as [|e es IH]; intros st; simpl.
  - by rewrite app_nil_r.
  - unfold emit_all in *; simpl. rewrite IH; simpl. by rewrite <- app_assoc.
Qed.

Lemma new_effects_emit_all es st : new_effects st (emit_all es st) = es.
Proof. unfold new_effects. rewrite trace_emit_all. apply drop_app_length. Qed.

Lemma emit_all_members es st :
  m_timer (emit_all es st) = m_timer st
  ∧ m_session_mgr (emit_all es st) = m_session_mgr st
  ∧ m_stat_manager (emit_all es st) = m_stat_manager st
  ∧ m_naming_array (emit_all es st) = m_naming_array st
  ∧ m_processor_array (emit_all es st) = m_processor_array st
  ∧ m_processor_map (emit_all es st) = m_processor_map st.
Proof.
  revert st. induction es as [|e es IH]; intros st; [done|].
  unfold emit_all in *; simpl. destruct (IH (emit e st)) as (?&?&?&?&?&?).
  repeat split; done.
Qed.

(** The naming loop adds what each present backend reports. *)
Lemma naming_loop w i array x st :
  for_each_present
    (λ i '(num, st),
       let n := Naming_Update_ret w i in
       (add32 num n, emit (Naming_Update i n) st))
    i array (wrap32 x, st)
  = (wrap32 (x + sum_over (Naming_Update_ret w) (present_from i array)),
     emit_all (map (λ i, Naming_Update i (Naming_Update_ret w i))
                 (present_from i array)) st).
Proof.
  revert i x st. induction array as [|p array IH]; intros i x st; simpl.
  - by rewrite Z.add_0_r.
  - case_decide; simpl.
    + unfold add32. rewrite wrap32_add_l, IH. f_equal. f_equal. lia.
    + by rewrite IH.
Qed.

(** The processor loop ticks each present processor and adds nothing. *)
Lemma processor_loop w i array (num : Z) st :
  for_each_present
    (λ i '(num, st),
       let n := IProcessor_Update_ret w i in
       (num, emit (IProcessor_Update i n) st))
    i array (num, st)
  = (num,
     emit_all (map (λ i, IProcessor_Update i (IProcessor_Update_ret w i))
                 (present_from i array)) st).
Proof.
  revert i st. induction array as [|p array IH]; intros i st; simpl; [done|].
  case_decide; simpl; by rewrite IH.
Qed.

Lemma Update_unfold w st :
  Update w st = (wrap32 (Update_count w st), emit_all (Update_calls w st) st).
Proof.
  unfold Update, Update_calls, Update_count.
  change (add32 0 (Message_Update_ret w)) with (wrap32 (Message_Update_ret w)).
  change (m_naming_array (emit (Message_Update (Message_Update_ret w)) st))
    with (m_naming_array st).
  rewrite naming_loop.
  rewrite !emit_all_app.
  set (st1 := emit_all _ (emit_all [Message_Update _] st)).
  destruct (emit_all_members
              (map (λ i, Naming_Update i (Naming_Update_ret w i))
                 (present_from 0 (m_naming_array st)))
              (emit_all [Message_Update (Message_Update_ret w)] st))
    as (Ht1 & Hs1 & Hm1 & _ & Hp1 & _).
  fold st1 in Ht1, Hs1, Hm1, Hp1.
  change (emit (Message_Update (Message_Update_ret w)) st)
    with (emit_all [Message_Update (Message_Update_ret w)] st).
  fold st1. rewrite Hp1.
  change (m_processor_array (emit_all [Message_Update (Message_Update_ret w)] st))
    with (m_processor_array st).
  rewrite processor_loop.
  set (st2 := emit_all _ st1).
  destruct (emit_all_members
              (map (λ i, IProcessor_Update i (IProcessor_Update_ret w i))
                 (present_from 0 (m_processor_array st))) st1)
    as (Ht2 & Hs2 & Hm2 & _).
  fold st2 in Ht2, Hs2, Hm2.
  change (m_timer (emit_all [Message_Update (Message_Update_ret w)] st))
    with (m_timer st) in Ht1.
  change (m_session_mgr (emit_all [Message_Update (Message_Update_ret w)] st))
    with (m_session_mgr st) in Hs1.
  change (m_stat_manager (emit_all [Message_Update (Message_Update_ret w)] st))
    with (m_stat_manager st) in Hm1.
  rewrite Ht1 in Ht2. rewrite Hs1 in Hs2. rewrite Hm1 in Hm2.
  rewrite Ht2.
  destruct (decide (m_timer st ≠ NULL)); simpl; rewrite ?Hs2;
    destruct (decide (m_session_mgr st ≠ NULL)); simpl; rewrite ?Hm2;
    destruct (decide (m_stat_manager st ≠ NULL)); simpl;
    unfold add32;
    repeat (rewrite <- ?Z.add_assoc; rewrite wrap32_add_l);
    f_equal; f_equal; lia.
Qed.

Lemma events_counted_app tr1 tr2 :
  events_counted (tr1 ++ tr2) = events_counted tr1 + events_counted tr2.
Proof.
  induction tr1 as [|e tr1 IH]; simpl; [done|].
  fold (events_counted (tr1 ++ tr2)). fold (events_counted tr1).
  rewrite IH. destruct e; simpl; lia.
Qed.

Lemma events_counted_naming w l :
  events_counted (map (λ i, Naming_Update i (Naming_Update_ret w i)) l)
  = sum_over (Naming_Update_ret w) l.
Proof.
  induction l as [|i l IH]; simpl; [done|].
  fold (events_counted (map (λ i, Naming_Update i (Naming_Update_ret w i)) l)).
  by rewrite IH.
Qed.

Lemma events_counted_processor w l :
  events_counted (map (λ i, IProcessor_Update i (IProcessor_Update_ret w i)) l) = 0.
Proof. induction l as [|i l IH]; simpl; done. Qed.

Lemma events_counted_Update_calls w st :
  events_counted (Update_calls w st) = Update_count w st.
Proof.
  unfold Update_calls, Update_count.
  rewrite !events_counted_app, events_counted_naming, events_counted_processor.
  repeat case_decide; simpl; lia.
Qed.

(** [present_from] lists exactly the non-null slots, in ascending order. *)
Lemma elem_of_present_from i array j :
  j ∈ present_from i array
  ↔ (i ≤ j)%nat ∧ ∃ p, array !! (j - i)%nat = Some p ∧ p ≠ NULL.
Proof.
  revert i. induction array as [|p array IH]; intros i; simpl.
  - split; [by intros ?%not_elem_of_nil | by intros (_ & ? & ? & _)].
  - rewrite elem_of_app, IH. split.
    + intros [Hin|(Hle & q & Hq & Hnn)].
      * case_decide as Hp; [|by apply not_elem_of_nil in Hin].
        apply list_elem_of_singleton in Hin as ->.
        split; [lia|]. exists p. by rewrite Nat.sub_diag.
      * split; [lia|]. exists q. split; [|done].
        replace (j - i)%nat with (S (j - S i)) by lia. done.
    + intros (Hle & q & Hq & Hnn).
      destruct (decide (j = i)) as [->|Hne].
      * left. rewrite Nat.sub_diag in Hq. injection Hq as ->.
        rewrite decide_True by done. by apply list_elem_of_singleton.
      * right. split; [lia|]. exists q. split; [|done].
        replace (j - i)%nat with (S (j - S i)) in Hq by lia. done.
Qed.

Lemma present_from_sorted i array : StronglySorted lt (present_from i array).
Proof.
  revert i. induction array as [|p array IH]; intros i; simpl; [constructor|].
  apply StronglySorted_app_2; [| |apply IH].
  - intros x1 x2 Hx1 [Hx2 _]%elem_of_present_from.
    case_decide; [|by apply not_elem_of_nil in Hx1].
    apply list_elem_of_singleton in Hx1 as ->. lia.
  - case_decide; repeat constructor.
Qed.

(** A block of calls of one sub-step in front of later sub-steps. *)
Lemma sub_steps_block (k k' n : nat) rest :
  (k ≤ k')%nat →
  StronglySorted le rest → Forall (le k') rest →
  StronglySorted le (replicate n k ++ rest) ∧ Forall (le k) (replicate n k ++ rest).
Proof.
  intros Hk Hs Hf.
  assert (Hrest : Forall (le k) rest).
  { eapply Forall_impl; [exact Hf|]. simpl. intros. lia. }
  induction n as [|n [IH1 IH2]]; simpl; [done|].
  split; [by constructor | by constructor].
Qed.

Lemma sub_step_naming w l :
  omap sub_step (map (λ i, Naming_Update i (Naming_Update_ret w i)) l)
  = replicate (length l) 2%nat.
Proof. induction l as [|i l IH]; simpl; [done|]. by f_equal. Qed.

Lemma sub_step_processor w l :
  omap sub_step (map (λ i, IProcessor_Update i (IProcessor_Update_ret w i)) l)
  = replicate (length l) 3%nat.
Proof. induction l as [|i l IH]; simpl; [done|]. by f_equal. Qed.

Lemma Update_calls_in_order w st :
  StronglySorted le (omap sub_step (Update_calls w st)).
Proof.
  unfold Update_calls. rewrite !omap_app, sub_step_naming, sub_step_processor.
  change (omap sub_step [Message_Update (Message_Update_ret w)])
    with (replicate 1 1%nat).
  assert (H6 : ∀ l : list nat,
    l = [] ∨ l = [6; 6]%nat → StronglySorted le l ∧ Forall (le 6%nat) l).
  { intros l [->| ->]; split; repeat constructor. }
  assert (H5 : ∀ l5 l6 : list nat,
    l5 = [] ∨ l5 = replicate 1 5%nat → l6 = [] ∨ l6 = [6; 6]%nat →
    StronglySorted le (l5 ++ l6) ∧ Forall (le 5%nat) (l5 ++ l6)).
  { intros l5 l6 H Hl6. destruct (H6 l6 Hl6) as [Hs Hf].
    destruct H as [->| ->].
    - apply (sub_steps_block 5 6 0); [lia|done|done].
    - apply (sub_steps_block 5 6 1); [lia|done|done]. }
  assert (H4 : ∀ l4 l5 l6 : list nat,
    l4 = [] ∨ l4 = replicate 1 4%nat →
    l5 = [] ∨ l5 = replicate 1 5%nat → l6 = [] ∨ l6 = [6; 6]%nat →
    StronglySorted le (l4 ++ l5 ++ l6) ∧ Forall (le 4%nat) (l4 ++ l5 ++ l6)).
  { intros l4 l5 l6 H Hl5 Hl6. destruct (H5 l5 l6 Hl5 Hl6) as [Hs Hf].
    destruct H as [->| ->].
    - apply (sub_steps_block 4 5 0); [lia|done|done].
    - apply (sub_steps_block 4 5 1); [lia|done|done]. }
  match goal with
  | |- StronglySorted le (_ ++ _ ++ _ ++ ?l4 ++ ?l5 ++ ?l6) =>
      destruct (H4 l4 l5 l6) as [Hs Hf];
        [case_decide; [by right | by left] ..|]
  end.
  match type of Hs with
  | StronglySorted le ?rest =>
      destruct (sub_steps_block 3 4
                  (length (present_from 0 (m_processor_array st))) rest
                  ltac:(lia) Hs Hf) as [Hs3 Hf3]
  end.
  match type of Hs3 with
  | StronglySorted le ?rest =>
      destruct (sub_steps_block 2 3
                  (length (present_from 0 (m_naming_array st))) rest
                  ltac:(lia) Hs3 Hf3) as [Hs2 Hf2]
  end.
  match type of Hs2 with
  | StronglySorted le ?rest =>
      exact (proj1 (sub_steps_block 1 2 1 rest ltac:(lia) Hs2 Hf2))
  end.
Qed.

(** One [Update] makes the calls of [Update_calls] and no other:
    the transport pump, then the refresh of every naming backend that
    exists, then the tick of every processor that exists, then the timer,
    the pending-call timeout check and the statistics update, each of the
    last three when its component exists.  The calls are in sub-step order.
    The value returned is the 32-bit sum of the counts reported by the
    transport pump, the naming refreshes, the timer, the timeout check and
    the statistics update; what the processor ticks report is not added. *)
Theorem Update_tick w st :
  new_effects st (Update w st).2 = Update_calls w st
  ∧ StronglySorted le (omap sub_step (new_effects st (Update w st).2))
  ∧ (Update w st).1 = wrap32 (events_counted (new_effects st (Update w st).2))
  ∧ (in_int32 (events_counted (new_effects st (Update w st).2)) →
     (Update w st).1 = events_counted (new_effects st (Update w st).2)).
Proof.
  rewrite Update_unfold. cbn [fst snd]. rewrite new_effects_emit_all.
  rewrite events_counted_Update_calls.
  split; [done|]. split; [apply Update_calls_in_order|]. split; [done|].
  intros H. by apply wrap32_in_range.
Qed.

Lemma Update_tick_witness :
  in_int32 (events_counted
              (new_effects client_with_processor
                 (Update (world_of 1 1 0 0) client_with_processor).2))
  ∧ (Update (world_of 1 1 0 0) client_with_processor).1
    = events_counted
        (new_effects client_with_processor
           (Update (world_of 1 1 0 0) client_with_processor).2).
Proof.
  assert (H : in_int32 (events_counted
              (new_effects client_with_processor
                 (Update (world_of 1 1 0 0) client_with_processor).2))).
  { vm_compute. split; [discriminate | reflexivity]. }
  split; [exact H|].
  exact (proj2 (proj2 (proj2
    (Update_tick (world_of 1 1 0 0) client_with_processor))) H).
Defined.

(** C4.  [Update] is to return the number of events processed across
    its sub-steps.  On a client that holds one processor and nothing else
    (no naming backend, timer, session manager or statistics manager), in
    a tick where the transport pump reports no event and the processor's
    tick reports one, [Update] makes these two calls in this order, one
    event is processed, and [Update] returns 0: the loop over the
    processors drops what a tick reports.  The other sub-steps add their
    count to the result: on a client that holds a timer in place of the
    processor, a tick in which the timer reports one event returns 1. *)
Lemma Update_processor_events_not_counted :
  new_effects client_with_processor
    (Update (world_of 1 1 0 0) client_with_processor).2
  = [Message_Update 0; IProcessor_Update 1 1]
  ∧ events_processed
      (new_effects client_with_processor
         (Update (world_of 1 1 0 0) client_with_processor).2) = 1
  ∧ (Update (world_of 1 1 0 0) client_with_processor).1 = 0
  ∧ (Update (world_of 1 1 0 0) client_with_processor).1
    ≠ events_processed
        (new_effects client_with_processor
           (Update (world_of 1 1 0 0) client_with_processor).2)
  ∧ new_effects client_with_timer (Update timer_fires_world client_with_timer).2
    = [Message_Update 0; Timer_Update 1]
  ∧ (Update timer_fires_world client_with_timer).1 = 1
  ∧ (Update timer_fires_world client_with_timer).1
    = events_processed
        (new_effects client_with_timer
           (Update timer_fires_world client_with_timer).2).
Proof. vm_compute. repeat split; discriminate. Qed.

(** * Start-up *)

Lemma emit_coroutine_schedule e st :
  m_coroutine_schedule (emit e st) = m_coroutine_schedule st.
Proof. done. Qed.

Lemma InitTimer_status w st :
  (InitTimer w st).1 = if decide (Timer_StartTimer_ret w < 0) then -1 else 0.
Proof. unfold InitTimer. by case_decide. Qed.

Lemma InitTimer_coroutine_schedule w st :
  m_coroutine_schedule (InitTimer w st).2 = m_coroutine_schedule st.
Proof.
  unfold InitTimer.
  destruct (decide (m_timer st = NULL)); by case_decide.
Qed.

Lemma InitCoSchedule_status w st :
  (InitCoSchedule w st).1
  = if decide (m_coroutine_schedule st = NULL ∧ CoroutineSchedule_Init_ret w ≠ 0)
    then -1 else 0.
Proof.
  unfold InitCoSchedule.
  destruct (decide (m_coroutine_schedule st ≠ NULL)) as [Hc|Hc]; simpl.
  - rewrite decide_False; [done | tauto].
  - apply dec_stable in Hc.
    destruct (decide (CoroutineSchedule_Init_ret w ≠ 0)) as [Hi|Hi]; simpl.
    + by rewrite decide_True.
    + rewrite decide_False; [done | tauto].
Qed.

Lemma InitStat_status w st : (InitStat w st).1 = StatManager_Init_ret w.
Proof. done. Qed.

Lemma Init_result w st :
  (Init w st).1 = if existsb (fails w st) subsystems then -1 else 0.
Proof.
  unfold Init, CHECK_RETURN.
  set (st0 := emit (PLOG_INFO "%s") (emit InitLog (emit RegisterErrorString st))).
  pose proof (InitTimer_status w st0) as Ht.
  pose proof (InitTimer_coroutine_schedule w st0) as Hco.
  destruct (InitTimer w st0) as [ret1 st1]; simpl in Ht, Hco. subst ret1.
  unfold fails, subsystems, existsb.
  destruct (decide (Timer_StartTimer_ret w < 0)) as [H1|H1].
  { rewrite (bool_decide_eq_true_2 _ H1). by rewrite decide_True. }
  rewrite (bool_decide_eq_false_2 _ H1), decide_False by (intros H; by apply H).
  pose proof (InitCoSchedule_status w st1) as Hc. rewrite Hco in Hc.
  change (m_coroutine_schedule st0) with (m_coroutine_schedule st) in Hc.
  destruct (InitCoSchedule w st1) as [ret2 st2]; simpl in Hc. subst ret2.
  destruct (decide (m_coroutine_schedule st = NULL
                    ∧ CoroutineSchedule_Init_ret w ≠ 0)) as [H2|H2].
  { rewrite (bool_decide_eq_true_2 _ H2). by rewrite decide_True. }
  rewrite (bool_decide_eq_false_2 _ H2), decide_False by (intros H; by apply H).
  pose proof (InitStat_status w st2) as Hs.
  destruct (InitStat w st2) as [ret3 st3]; simpl in Hs. subst ret3.
  cbn [orb].
  destruct (decide (StatManager_Init_ret w ≠ 0)) as [H3|H3].
  { by rewrite (bool_decide_eq_true_2 _ H3). }
  rewrite (bool_decide_eq_false_2 _ H3).
  destruct (decide (Message_Init_ret w ≠ 0)) as [H4|H4].
  { by rewrite (bool_decide_eq_true_2 _ H4). }
  rewrite (bool_decide_eq_false_2 _ H4).
  destruct (decide (SetRouterFactory_ret w ≠ 0)) as [H5|H5].
  { by rewrite (bool_decide_eq_true_2 _ H5). }
  by rewrite (bool_decide_eq_false_2 _ H5).
Qed.

(** C5.  When the initialization of a subordinate subsystem (timer,
    cooperative scheduler, statistics, transport registration, router
    factory registration) fails, [Init] returns -1, a non-zero code; the
    code is this same -1 whichever subsystem failed. *)
Theorem Init_failure_code w st s :
  fails w st s = true →
  (Init w st).1 = -1 ∧ (Init w st).1 ≠ 0.
Proof.
  intros Hs. rewrite Init_result.
  assert (H : existsb (fails w st) subsystems = true).
  { apply existsb_exists. exists s. split; [|done].
    destruct s; simpl; tauto. }
  rewrite H. split; [done | discriminate].
Qed.

Lemma Init_failure_code_witness :
  fails (world_of 0 (-1) 0 0) fresh_client Sub_Timer = true
  ∧ (Init (world_of 0 (-1) 0 0) fresh_client).1 = -1.
Proof.
  split; [reflexivity|].
  exact (proj1 (Init_failure_code (world_of 0 (-1) 0 0) fresh_client Sub_Timer
                  eq_refl)).
Defined.

(** When no subsystem fails, [Init] returns 0. *)
Lemma Init_success w st :
  (∀ s, fails w st s = false) → (Init w st).1 = 0.
Proof.
  intros H. rewrite Init_result.
  destruct (existsb (fails w st) subsystems) eqn:E; [|done].
  apply existsb_exists in E as (s & _ & Hs). by rewrite H in Hs.
Qed.

(** C5, read as "different failing subsystems give different codes": in
    two worlds that differ in the subsystem that fails (the timer in one,
    the statistics manager in the other), [Init] returns the same -1. *)
Lemma Init_codes_not_distinct :
  List.filter (fails (world_of 0 (-1) 0 0) fresh_client) subsystems = [Sub_Timer]
  ∧ List.filter (fails (world_of 0 1 7 0) fresh_client) subsystems = [Sub_Stat]
  ∧ (Init (world_of 0 (-1) 0 0) fresh_client).1 = -1
  ∧ (Init (world_of 0 1 7 0) fresh_client).1 = -1
  ∧ ¬ ((Init (world_of 0 (-1) 0 0) fresh_client).1
       ≠ (Init (world_of 0 1 7 0) fresh_client).1).
Proof. vm_compute. repeat split; auto. Qed.

(** * Routers by name *)

Lemma GetRouter_empty_name w st router_type :
  GetRouter w st "" router_type
  = Some (NULL, emit (PLOG_ERROR "name is empty" []) st).
Proof. done. Qed.

(** A name that is in the router map is answered from the map: no
    factory is asked, nothing is initialized, the state is untouched. *)
Lemma GetRouter_cached w st name router_type router :
  name ≠ "" →
  m_router_map st !! name = Some router →
  GetRouter w st name router_type = Some (router, st).
Proof.
  intros Hname Hmap. unfold GetRouter.
  rewrite decide_False by done. by rewrite Hmap.
Qed.

(** A router handed out for a name is in the router map afterwards. *)
Lemma GetRouter_recorded w st name router_type router st' :
  name ≠ "" →
  GetRouter w st name router_type = Some (router, st') →
  router ≠ NULL →
  m_router_map st' !! name = Some router.
Proof.
  intros Hname Hget Hr. unfold GetRouter in Hget.
  rewrite decide_False in Hget by done.
  destruct (m_router_map st !! name) as [r|] eqn:Hmap.
  { by injection Hget as -> ->. }
  destruct (decide (GetRouterFactory w router_type = NULL)).
  { injection Hget as <- _. done. }
  destruct (GetNaming w _ _) as [[naming st1]|]; simpl in Hget; [|done].
  destruct (decide (_ = NULL)); [done|].
  injection Hget as <- <-. simpl. apply lookup_insert_eq.
Qed.

(** What the first request for a name does when the factory of the router
    type is registered and hands back a router. *)
Lemma GetRouter_creates w st name router_type naming st1 :
  name ≠ "" →
  m_router_map st !! name = None →
  GetRouterFactory w router_type ≠ NULL →
  RouterFactory_GetRouter_ret w (GetRouterFactory w router_type) name ≠ NULL →
  GetNaming w
    (emit (RouterFactory_GetRouter (GetRouterFactory w router_type) name
             (RouterFactory_GetRouter_ret w (GetRouterFactory w router_type) name)) st)
    (GetNaming_default_type w) = Some (naming, st1) →
  let router := RouterFactory_GetRouter_ret w (GetRouterFactory w router_type) name in
  let ret := Router_Init_ret w router naming in
  GetRouter w st name router_type
  = Some (router,
          set_router_map (<[name := router]>)
            (emit_all
               (Router_Init router naming ret
                :: if decide (ret ≠ 0)
                   then [PLOG_ERROR "router %s init failed(%d)" [ArgStr name; ArgInt ret]]
                   else [])
               st1)).
Proof.
  intros Hname Hmap Hf Hr Hn. simpl. unfold GetRouter.
  rewrite decide_False by done. rewrite Hmap.
  rewrite decide_False by done. rewrite Hn; simpl.
  rewrite decide_False by done.
  by case_decide.
Qed.

(** A naming lookup leaves the router map alone, only appends to the
    trace, and asks no router factory. *)
Lemma GetNaming_appends w st naming_type naming st' :
  GetNaming w st naming_type = Some (naming, st') →
  m_router_map st' = m_router_map st
  ∧ ∃ es, trace st' = trace st ++ es ∧ routers_made es = [].
Proof.
  unfold GetNaming. intros Hget.
  destruct (m_naming_array st !! naming_type) as [p|]; simpl in Hget; [|done].
  destruct (decide (p ≠ NULL)).
  { injection Hget as _ <-. split; [done|]. exists []. by rewrite app_nil_r. }
  destruct (decide (GetNamingFactory w naming_type = NULL));
    injection Hget as _ <-; (split; [done|]); by eexists [_].
Qed.

Lemma emit_all_router_map es st :
  m_router_map (emit_all es st) = m_router_map st.
Proof.
  revert st. induction es as [|e es IH]; intros st; [done|].
  unfold emit_all in *; simpl. by rewrite IH.
Qed.

Lemma routers_made_app tr1 tr2 :
  routers_made (tr1 ++ tr2) = routers_made tr1 ++ routers_made tr2.
Proof. apply omap_app. Qed.

(** C6.  Routers are cached by name, one router per name.  For a
    non-empty name:
    - a router that is in the map for the name is handed out from the
      map, and nothing changes (no factory is asked);
    - when the name is not in the map, the factory of the router type is
      registered and hands back a router, and the naming lookup is
      defined, the request has the factory make exactly one router, for
      this name, stores it in the map under the name (the entry of every
      other name staying as it was) and hands it out; the next request for
      the name (in any world and for any router type) hands out the
      identical router and changes nothing, so no second router is made;
    - in general, whenever a request hands out a router, the router is in
      the map under the name afterwards and the next request for the name
      hands out the identical router and changes nothing.
    A request with the empty name hands out no router (NULL), writes an
    error record and has no router made. *)
Theorem GetRouter_cached_by_name w1 w2 st name router_type router_type2 :
  name ≠ "" →
  (∀ router,
     m_router_map st !! name = Some router →
     GetRouter w1 st name router_type = Some (router, st))
  ∧ (∀ naming st_n,
       m_router_map st !! name = None →
       GetRouterFactory w1 router_type ≠ NULL →
       RouterFactory_GetRouter_ret w1 (GetRouterFactory w1 router_type) name ≠ NULL →
       GetNaming w1
         (emit (RouterFactory_GetRouter (GetRouterFactory w1 router_type) name
                  (RouterFactory_GetRouter_ret w1 (GetRouterFactory w1 router_type) name))
            st)
         (GetNaming_default_type w1) = Some (naming, st_n) →
       ∃ st1,
         GetRouter w1 st name router_type
         = Some (RouterFactory_GetRouter_ret w1 (GetRouterFactory w1 router_type) name, st1)
         ∧ m_router_map st1
           = <[name := RouterFactory_GetRouter_ret w1 (GetRouterFactory w1 router_type) name]>
               (m_router_map st)
         ∧ routers_made (new_effects st st1)
           = [(name, RouterFactory_GetRouter_ret w1 (GetRouterFactory w1 router_type) name)]
         ∧ GetRouter w2 st1 name router_type2
           = Some (RouterFactory_GetRouter_ret w1 (GetRouterFactory w1 router_type) name, st1))
  ∧ (∀ router st1,
       GetRouter w1 st name router_type = Some (router, st1) →
       router ≠ NULL →
       m_router_map st1 !! name = Some router
       ∧ GetRouter w2 st1 name router_type2 = Some (router, st1))
  ∧ GetRouter w1 st "" router_type
    = Some (NULL, emit (PLOG_ERROR "name is empty" []) st)
  ∧ m_router_map (emit (PLOG_ERROR "name is empty" []) st) = m_router_map st
  ∧ routers_made (new_effects st (emit (PLOG_ERROR "name is empty" []) st)) = [].
Proof.
  intros Hname. split; [intros router; by apply GetRouter_cached|]. split.
  { intros naming st_n Hmap Hf Hr Hn.
    pose proof (GetRouter_creates w1 st name router_type naming st_n
                  Hname Hmap Hf Hr Hn) as Hget.
    cbv zeta in Hget.
    apply GetNaming_appends in Hn as (Hrm & es & Htr & Hes).
    eexists. split; [exact Hget|].
    split.
    { cbn [m_router_map set_router_map].
      by rewrite emit_all_router_map, Hrm. }
    split.
    - unfold new_effects. cbn [trace set_router_map].
      rewrite trace_emit_all, Htr. cbn [trace emit].
      rewrite <- !app_assoc, drop_app_length.
      rewrite !routers_made_app, Hes. by case_decide.
    - apply GetRouter_cached; [done|]. simpl. apply lookup_insert_eq. }
  split.
  { intros router st1 Hget Hr.
    pose proof (GetRouter_recorded _ _ _ _ _ _ Hname Hget Hr) as Hrec.
    split; [done|]. by apply GetRouter_cached. }
  split; [apply GetRouter_empty_name|]. split; [done|].
  by rewrite new_effects_emit.
Qed.

Lemma GetRouter_cached_by_name_witness :
  "svc-a" ≠ ""
  ∧ GetRouter quiet_world fresh_client "svc-a" 0
    = Some (300, client_after_GetRouter quiet_world)
  ∧ m_router_map (client_after_GetRouter quiet_world) = <["svc-a" := 300]> ∅
  ∧ routers_made (new_effects fresh_client (client_after_GetRouter quiet_world))
    = [("svc-a", 300)]
  ∧ GetRouter quiet_world (client_after_GetRouter quiet_world) "svc-a" 0
    = Some (300, client_after_GetRouter quiet_world).
Proof.
  assert (H1 : "svc-a" ≠ "") by discriminate.
  destruct (proj1 (proj2 (GetRouter_cached_by_name quiet_world quiet_world
                            fresh_client "svc-a" 0 0 H1))
              400
              (set_naming_array (<[0%nat := 400]>)
                 (emit (NamingFactory_GetNaming 200 400)
                    (emit (RouterFactory_GetRouter 100 "svc-a" 300) fresh_client)))
              eq_refl ltac:(discriminate) ltac:(discriminate) eq_refl)
    as (st1 & Hget & Hmap & Hmade & Hnext).
  assert (Hst : st1 = client_after_GetRouter quiet_world).
  { unfold client_after_GetRouter. by rewrite Hget. }
  rewrite Hst in Hget, Hmap, Hmade, Hnext.
  split; [exact H1|]. split; [exact Hget|]. split; [exact Hmap|].
  split; [exact Hmade|]. exact Hnext.
Defined.

(** C10.  A router whose initialization fails is kept.  On the first
    request for a name, when the factory hands back a router and
    [router->Init] returns a non-zero status, [GetRouter] writes an error
    record, stores the router under the name and returns it like a
    successful one.  Every later request for the name returns this same
    router from the map, without initializing it again. *)
Theorem GetRouter_keeps_failed_router w st name router_type naming st1 :
  name ≠ "" →
  m_router_map st !! name = None →
  GetRouterFactory w router_type ≠ NULL →
  RouterFactory_GetRouter_ret w (GetRouterFactory w router_type) name ≠ NULL →
  GetNaming w
    (emit (RouterFactory_GetRouter (GetRouterFactory w router_type) name
             (RouterFactory_GetRouter_ret w (GetRouterFactory w router_type) name)) st)
    (GetNaming_default_type w) = Some (naming, st1) →
  Router_Init_ret w
    (RouterFactory_GetRouter_ret w (GetRouterFactory w router_type) name) naming ≠ 0 →
  ∃ st',
    GetRouter w st name router_type
    = Some (RouterFactory_GetRouter_ret w (GetRouterFactory w router_type) name, st')
    ∧ m_router_map st' !! name
      = Some (RouterFactory_GetRouter_ret w (GetRouterFactory w router_type) name)
    ∧ new_effects st1 st'
      = [Router_Init
           (RouterFactory_GetRouter_ret w (GetRouterFactory w router_type) name)
           naming
           (Router_Init_ret w
              (RouterFactory_GetRouter_ret w (GetRouterFactory w router_type) name)
              naming);
         PLOG_ERROR "router %s init failed(%d)"
           [ArgStr name;
            ArgInt (Router_Init_ret w
                      (RouterFactory_GetRouter_ret w (GetRouterFactory w router_type) name)
                      naming)]]
    ∧ ∀ w' router_type',
        GetRouter w' st' name router_type'
        = Some (RouterFactory_GetRouter_ret w (GetRouterFactory w router_type) name, st').
Proof.
  intros Hname Hmap Hf Hr Hn Hinit.
  pose proof (GetRouter_creates w st name router_type naming st1
                Hname Hmap Hf Hr Hn) as Hget.
  simpl in Hget. rewrite decide_True in Hget by done.
  eexists. split; [exact Hget|].
  split; [apply lookup_insert_eq|]. split.
  - unfold new_effects; simpl. rewrite <- app_assoc. apply drop_app_length.
  - intros w' rt'. apply GetRouter_cached; [done|]. apply lookup_insert_eq.
Qed.

Lemma GetRouter_keeps_failed_router_witness :
  "svc-a" ≠ ""
  ∧ Router_Init_ret (world_of 0 1 0 (-1)) 300 400 ≠ 0
  ∧ GetRouter (world_of 0 1 0 (-1)) fresh_client "svc-a" 0
    = Some (300, client_after_GetRouter (world_of 0 1 0 (-1)))
  ∧ GetRouter quiet_world (client_after_GetRouter (world_of 0 1 0 (-1))) "svc-a" 0
    = Some (300, client_after_GetRouter (world_of 0 1 0 (-1))).
Proof.
  assert (H1 : "svc-a" ≠ "") by discriminate.
  assert (H2 : Router_Init_ret (world_of 0 1 0 (-1)) 300 400 ≠ 0) by discriminate.
  destruct (GetRouter_keeps_failed_router (world_of 0 1 0 (-1)) fresh_client
              "svc-a" 0 400
              (set_naming_array (<[0%nat := 400]>)
                 (emit (NamingFactory_GetNaming 200 400)
                    (emit (RouterFactory_GetRouter 100 "svc-a" 300) fresh_client)))
              H1 eq_refl ltac:(discriminate) ltac:(discriminate) eq_refl H2)
    as (st' & Hget & _ & _ & Hlater).
  assert (Hst : st' = client_after_GetRouter (world_of 0 1 0 (-1))).
  { unfold client_after_GetRouter. by rewrite Hget. }
  rewrite Hst in Hget, Hlater.
  split; [exact H1|]. split; [exact H2|]. split; [exact Hget|].
  exact (Hlater quiet_world 0).
Defined.

(** * Ordered sets *)

Lemma ltb_irrefl (a : string) : String.ltb a a = false.
Proof.
  unfold String.ltb.
  destruct (String.compare a a) eqn:E; try done.
  pose proof (String.compare_antisym a a) as H. rewrite E in H. done.
Qed.

Lemma ltb_trans (a b c : string) :
  String.ltb a b = true → String.ltb b c = true → String.ltb a c = true.
Proof.
  unfold String.ltb.
  destruct (String.compare a b) eqn:Eab; try done.
  destruct (String.compare b c) eqn:Ebc; try done.
  intros _ _.
  apply OrderedTypeEx.String_as_OT.cmp_lt in Eab, Ebc.
  pose proof (OrderedTypeEx.String_as_OT.lt_trans _ _ _ Eab Ebc) as H.
  apply OrderedTypeEx.String_as_OT.cmp_lt in H.
  unfold OrderedTypeEx.String_as_OT.cmp in H. by rewrite H.
Qed.

Lemma ltb_total (a b : string) :
  String.ltb a b = false → String.ltb b a = false → a = b.
Proof.
  unfold String.ltb. rewrite (String.compare_antisym b a).
  destruct (String.compare a b) eqn:E; simpl; try done.
  intros _ _. by apply String.compare_eq_iff.
Qed.

Section KeyOrdered.
Context {T : Type} (key : T → string) (less : T → T → bool).
Hypothesis less_key : ∀ a b, less a b = String.ltb (key a) (key b).

Local Abbreviation ascending := (StdSet.ascending less).

Lemma less_irrefl a b : key a = key b → less a b = false.
Proof. intros E. rewrite less_key, E. apply ltb_irrefl. Qed.

Lemma less_trans a b c : less a b = true → less b c = true → less a c = true.
Proof. rewrite !less_key. apply ltb_trans. Qed.

Lemma equivalent_key a b : less a b = false → less b a = false → key a = key b.
Proof. rewrite !less_key. apply ltb_total. Qed.

Lemma elem_of_insert x s y : y ∈ StdSet.insert less x s → y = x ∨ y ∈ s.
Proof.
  induction s as [|z s IH]; simpl.
  - intros ->%list_elem_of_singleton. by left.
  - destruct (less x z).
    + intros [->|H]%elem_of_cons; [by left | by right].
    + destruct (less z x); [|by right].
      intros [->|H]%elem_of_cons; [right; by left|].
      destruct (IH H) as [->|H']; [by left | right; by right].
Qed.

Lemma elem_of_insert_old x s y : y ∈ s → y ∈ StdSet.insert less x s.
Proof.
  induction s as [|z s IH]; simpl; [by intros ?%not_elem_of_nil|].
  intros Hy. destruct (less x z); [by right|].
  destruct (less z x); [|done].
  apply elem_of_cons in Hy as [->|Hy]; [by left | right; by apply IH].
Qed.


Lemma elem_of_insert_new x s :
  (∀ y, y ∈ s → key y ≠ key x) → x ∈ StdSet.insert less x s.
Proof.
  induction s as [|z s IH]; simpl; intros Hs; [by left|].
  destruct (less x z) eqn:Exz; [by left|].
  destruct (less z x) eqn:Ezx.
  - right. apply IH. intros y Hy. apply Hs. by right.
  - exfalso. apply (Hs z); [by left | by apply equivalent_key].
Qed.

Lemma elem_of_erase x s y : y ∈ StdSet.erase less x s → y ∈ s.
Proof.
  induction s as [|z s IH]; simpl; [done|].
  destruct (less x z); [done|].
  destruct (less z x); [|by right].
  intros [->|H]%elem_of_cons; [by left | right; by apply IH].
Qed.

Lemma elem_of_erase_other x s y :
  y ∈ s → key y ≠ key x → y ∈ StdSet.erase less x s.
Proof.
  intros Hy Hk. induction s as [|z s IH]; simpl; [done|].
  destruct (less x z) eqn:Exz; [done|].
  destruct (less z x) eqn:Ezx.
  - apply elem_of_cons in Hy as [->|Hy]; [by left | right; by apply IH].
  - apply elem_of_cons in Hy as [->|Hy]; [|done].
    exfalso. apply Hk. by apply equivalent_key.
Qed.

Lemma insert_ascending x s : ascending s → ascending (StdSet.insert less x s).
Proof.
  unfold StdSet.ascending. induction 1 as [|z s Hs IH Hz]; simpl.
  - repeat constructor.
  - destruct (less x z) eqn:Exz.
    + constructor; [by constructor|].
      constructor; [done|].
      eapply Forall_impl; [exact Hz|]. simpl. intros y Hy. by eapply less_trans.
    + destruct (less z x) eqn:Ezx; [|by constructor].
      constructor; [done|].
      apply Forall_forall. intros y [->|Hy]%elem_of_insert; [done|].
      rewrite Forall_forall in Hz. by apply Hz.
Qed.

Lemma erase_ascending x s : ascending s → ascending (StdSet.erase less x s).
Proof.
  unfold StdSet.ascending. induction 1 as [|z s Hs IH Hz]; simpl; [constructor|].
  destruct (less x z); [by constructor|].
  destruct (less z x); [|done].
  constructor; [done|].
  apply Forall_forall. intros y Hy%elem_of_erase.
  rewrite Forall_forall in Hz. by apply Hz.
Qed.

(** An ascending set holds at most one element per key. *)
Lemma ascending_NoDup_keys s : ascending s → NoDup (map key s).
Proof.
  unfold StdSet.ascending.
  induction 1 as [|z s Hs IH Hz]; simpl; [constructor|].
  apply NoDup_cons_2; [|done].
  intros Hin. apply list_elem_of_In, in_map_iff in Hin as (y & Hk & Hy).
  apply list_elem_of_In in Hy.
  rewrite Forall_forall in Hz. specialize (Hz y Hy).
  rewrite less_irrefl in Hz; done.
Qed.

Lemma ascending_unique s a b :
  ascending s → a ∈ s → b ∈ s → key a = key b → a = b.
Proof.
  unfold StdSet.ascending. induction 1 as [|z s Hs IH Hz]; [by intros ?%not_elem_of_nil|].
  rewrite Forall_forall in Hz.
  intros [->|Ha]%elem_of_cons [->|Hb]%elem_of_cons Hk; [done| | |by apply IH].
  - specialize (Hz b Hb). rewrite less_irrefl in Hz; done.
  - specialize (Hz a Ha). rewrite less_irrefl in Hz; done.
Qed.

(** After an erasure no element with the key of [x] is left. *)
Lemma erase_drops_key x s y :
  ascending s → y ∈ StdSet.erase less x s → key y ≠ key x.
Proof.
  unfold StdSet.ascending. induction 1 as [|z s Hs IH Hz]; simpl; [by intros ?%not_elem_of_nil|].
  rewrite Forall_forall in Hz.
  destruct (less x z) eqn:Exz.
  - intros Hy Hk.
    assert (Hxy : less x y = true).
    { apply elem_of_cons in Hy as [->|Hy]; [done|].
      eapply less_trans; [exact Exz | by apply Hz]. }
    rewrite less_irrefl in Hxy; done.
  - destruct (less z x) eqn:Ezx.
    + intros [->|Hy]%elem_of_cons; [|by apply IH].
      intros Hk. rewrite less_irrefl in Ezx; done.
    + intros Hy Hk. specialize (Hz y Hy).
      rewrite less_irrefl in Hz; [done|].
      rewrite Hk. symmetry. by apply equivalent_key.
Qed.

(** [insert] alone does not replace: when an element with the key of [x]
    is present, the set stays as it is. *)
Lemma insert_present x s y :
  ascending s → y ∈ s → key y = key x → StdSet.insert less x s = s.
Proof.
  unfold StdSet.ascending. induction 1 as [|z s Hs IH Hz]; simpl; [by intros ?%not_elem_of_nil|].
  rewrite Forall_forall in Hz.
  intros [->|Hy]%elem_of_cons Hk.
  - rewrite (less_irrefl x z), (less_irrefl z x); done.
  - assert (Hzx : less z x = true).
    { specialize (Hz y Hy). rewrite !less_key in *. by rewrite <- Hk. }
    destruct (less x z) eqn:Exz.
    + pose proof (less_trans _ _ _ Exz Hzx) as H.
      rewrite less_irrefl in H; done.
    + rewrite Hzx. f_equal. by apply IH.
Qed.

End KeyOrdered.

(** * The coordination-service client *)

Module ZookeeperClientFacts.
Import ZookeeperClient.

Lemma operator_lt_key a b : operator_lt a b = String.ltb (_path a) (_path b).
Proof. done. Qed.




Lemma run_cons st e history :
  (run st (e :: history)).1 = (run (step st e).1 history).1.
Proof.
  cbn [run]. destruct (step st e) as [st1 r1]. cbn [fst].
  destruct (run st1 history) as [st2 r2]. reflexivity.
Qed.

(** Nothing but the application's own calls changes the bookkeeping. *)
Ltac step_cases st e :=
  destruct e; simpl; try done;
  try (destruct (session st) as [| [|] | | |]; simpl; done).





Lemma run_keeps (member : State → Prop) :
  (∀ st e, member st → member (step st e).1) →
  ∀ history st, member st → member (run st history).1.
Proof.
  intros Hstep history. induction history as [|e history IH]; intros st H; [done|].
  rewrite run_cons. by apply IH, Hstep.
Qed.


Lemma step_ephemeral_ascending st e :
  StdSet.ascending operator_lt (m_ephemeral_node st) →
  StdSet.ascending operator_lt (m_ephemeral_node (step st e).1).
Proof.
  intros H. step_cases st e.
  - apply (insert_ascending _path operator_lt operator_lt_key).
    by apply erase_ascending.
  - by apply erase_ascending.
Qed.

Lemma run_ephemeral_ascending history :
  StdSet.ascending operator_lt (m_ephemeral_node (run ZookeeperClient history).1).
Proof.
  apply (run_keeps (λ st, StdSet.ascending operator_lt (m_ephemeral_node st))).
  - apply step_ephemeral_ascending.
  - constructor.
Qed.



Lemma run_app st h1 h2 :
  (run st (h1 ++ h2)).1 = (run (run st h1).1 h2).1.
Proof.
  revert st. induction h1 as [|e h1 IH]; intros st; [done|].
  change ((e :: h1) ++ h2) with (e :: (h1 ++ h2)). by rewrite !run_cons, IH.
Qed.

(** Registering a node puts it into the set, whatever was recorded for
    its path. *)
Lemma record_ephemeral_holds st node :
  StdSet.ascending operator_lt (m_ephemeral_node st) →
  node ∈ m_ephemeral_node (record_ephemeral node st).
Proof.
  intros H. simpl.
  apply (elem_of_insert_new _path operator_lt operator_lt_key).
  intros y Hy.
  by apply (erase_drops_key _path operator_lt operator_lt_key _ _ _ H).
Qed.






(** What a registration leaves in the set: the new entry, and the entries
    recorded before at every other path. *)
Lemma elem_of_record_ephemeral st node n :
  StdSet.ascending operator_lt (m_ephemeral_node st) →
  n ∈ m_ephemeral_node (record_ephemeral node st)
  ↔ n = node ∨ (n ∈ m_ephemeral_node st ∧ _path n ≠ _path node).
Proof.
  intros Hasc. split.
  - simpl. intros [->|Hn]%elem_of_insert; [by left|]. right. split.
    + by eapply elem_of_erase.
    + by apply (erase_drops_key _path operator_lt operator_lt_key _ _ _ Hasc Hn).
  - intros [->|[Hn Hp]]; [by apply record_ephemeral_holds|].
    simpl. apply elem_of_insert_old.
    by apply (elem_of_erase_other _path operator_lt operator_lt_key).
Qed.

(** What a deletion leaves in the set: the entries at every other path. *)
Lemma elem_of_forget_ephemeral st path n :
  StdSet.ascending operator_lt (m_ephemeral_node st) →
  n ∈ m_ephemeral_node (forget_ephemeral path st)
  ↔ n ∈ m_ephemeral_node st ∧ _path n ≠ path.
Proof.
  intros Hasc. split.
  - simpl. intros Hn. split; [by eapply elem_of_erase|].
    exact (erase_drops_key _path operator_lt operator_lt_key _ _ _ Hasc Hn).
  - intros [Hn Hp]. simpl.
    by apply (elem_of_erase_other _path operator_lt operator_lt_key).
Qed.

(** The iteration order of the set is the order of the paths. *)
Lemma ascending_by_path s :
  StdSet.ascending operator_lt s →
  StronglySorted (λ a b, String.compare (_path a) (_path b) = Lt) s.
Proof.
  unfold StdSet.ascending. induction 1 as [|z s Hs IH Hz]; constructor; [done|].
  eapply Forall_impl; [exact Hz|]. simpl. intros y. unfold operator_lt, String.ltb.
  by destruct (String.compare (_path z) (_path y)).
Qed.

(** C7.  The ephemeral bookkeeping is a set ordered and identified by
    path.  After any history it holds at most one entry per path and lists
    its entries in strictly ascending order of their paths; inserting an
    entry whose path is present leaves the set as it is, whatever the value
    and the ACL of the entry (the path alone identifies it).  After a node
    is registered, the entry for its path is the new one (path, value and
    ACL as registered), whatever was recorded for the path before, and the
    set holds besides it exactly the entries it held at the other paths:
    entries at different paths are different entries, and each is kept.
    A deletion removes the entry at its path and no other. *)
Theorem ephemeral_one_entry_per_path history path value acl :
  NoDup (map _path (m_ephemeral_node (run ZookeeperClient history).1))
  ∧ (∀ a b,
       a ∈ m_ephemeral_node (run ZookeeperClient history).1 →
       b ∈ m_ephemeral_node (run ZookeeperClient history).1 →
       _path a = _path b → a = b)
  ∧ (∀ old v' acl',
       old ∈ m_ephemeral_node (run ZookeeperClient history).1 →
       StdSet.insert operator_lt
         {| _path := _path old; _value := v'; _acl_vec := acl' |}
         (m_ephemeral_node (run ZookeeperClient history).1)
       = m_ephemeral_node (run ZookeeperClient history).1)
  ∧ {| _path := path; _value := value; _acl_vec := acl |}
      ∈ m_ephemeral_node
          (run ZookeeperClient (history ++ [CreateEphemeral path value acl])).1
  ∧ (∀ n,
       n ∈ m_ephemeral_node
             (run ZookeeperClient (history ++ [CreateEphemeral path value acl])).1 →
       _path n = path →
       n = {| _path := path; _value := value; _acl_vec := acl |})
  ∧ NoDup (map _path
             (m_ephemeral_node
                (run ZookeeperClient (history ++ [CreateEphemeral path value acl])).1))
  ∧ StronglySorted (λ a b, String.compare (_path a) (_path b) = Lt)
      (m_ephemeral_node (run ZookeeperClient history).1)
  ∧ (∀ n,
       n ∈ m_ephemeral_node
             (run ZookeeperClient (history ++ [CreateEphemeral path value acl])).1
       ↔ n = {| _path := path; _value := value; _acl_vec := acl |}
         ∨ (n ∈ m_ephemeral_node (run ZookeeperClient history).1 ∧ _path n ≠ path))
  ∧ (∀ path2 value2 acl2,
       path2 ≠ path →
       {| _path := path; _value := value; _acl_vec := acl |}
         ∈ m_ephemeral_node
             (run ZookeeperClient
                (history ++ [CreateEphemeral path value acl;
                             CreateEphemeral path2 value2 acl2])).1
       ∧ {| _path := path2; _value := value2; _acl_vec := acl2 |}
         ∈ m_ephemeral_node
             (run ZookeeperClient
                (history ++ [CreateEphemeral path value acl;
                             CreateEphemeral path2 value2 acl2])).1)
  ∧ (∀ n,
       n ∈ m_ephemeral_node (run ZookeeperClient (history ++ [Delete path])).1
       ↔ n ∈ m_ephemeral_node (run ZookeeperClient history).1 ∧ _path n ≠ path).
Proof.
  pose proof (run_ephemeral_ascending history) as Hasc.
  pose proof (run_ephemeral_ascending (history ++ [CreateEphemeral path value acl]))
    as Hasc'.
  assert (Hnew : {| _path := path; _value := value; _acl_vec := acl |}
      ∈ m_ephemeral_node
          (run ZookeeperClient (history ++ [CreateEphemeral path value acl])).1).
  { rewrite run_app, run_cons. by apply record_ephemeral_holds. }
  split; [by apply (ascending_NoDup_keys _path operator_lt operator_lt_key)|].
  split.
  { intros a b Ha Hb Hk.
    by apply (ascending_unique _path operator_lt operator_lt_key _ _ _ Hasc). }
  split.
  { intros old v' acl' Hold.
    by apply (insert_present _path operator_lt operator_lt_key _ _ old). }
  split; [done|]. split.
  { intros n Hn Hpath.
    by apply (ascending_unique _path operator_lt operator_lt_key _ _ _ Hasc'). }
  split; [by apply (ascending_NoDup_keys _path operator_lt operator_lt_key)|].
  split; [by apply ascending_by_path|].
  split.
  { intros n. rewrite run_app, run_cons.
    exact (elem_of_record_ephemeral _
             {| _path := path; _value := value; _acl_vec := acl |} n Hasc). }
  split.
  - intros path2 value2 acl2 Hne.
    change [CreateEphemeral path value acl; CreateEphemeral path2 value2 acl2]
      with ([CreateEphemeral path value acl] ++ [CreateEphemeral path2 value2 acl2]).
    rewrite app_assoc, run_app, run_cons.
    split.
    + apply elem_of_record_ephemeral; [done|]. right. split; [done|]. simpl. congruence.
    + by apply record_ephemeral_holds.
  - intros n. rewrite run_app, run_cons.
    exact (elem_of_forget_ephemeral _ path n Hasc).
Qed.

Lemma ephemeral_one_entry_per_path_witness :
  "/x" ≠ "/a/b"
  ∧ m_ephemeral_node
      (run ZookeeperClient
         ([CreateEphemeral "/x" "v0" []; CreateEphemeral "/a/b" "v1" []]
          ++ [CreateEphemeral "/a/b" "v2" []])).1
    = [{| _path := "/a/b"; _value := "v2"; _acl_vec := [] |};
       {| _path := "/x"; _value := "v0"; _acl_vec := [] |}]
  ∧ {| _path := "/x"; _value := "v0"; _acl_vec := [] |}
      ∈ m_ephemeral_node
          (run ZookeeperClient
             ([CreateEphemeral "/x" "v0" []; CreateEphemeral "/a/b" "v1" []]
              ++ [CreateEphemeral "/a/b" "v2" []])).1.
Proof.
  assert (H : "/x" ≠ "/a/b") by discriminate.
  split; [exact H|]. split; [reflexivity|].
  apply (proj2 (proj1 (proj2 (proj2 (proj2 (proj2 (proj2 (proj2 (proj2
    (ephemeral_one_entry_per_path
       [CreateEphemeral "/x" "v0" []; CreateEphemeral "/a/b" "v1" []]
       "/a/b" "v2" [])))))))) {| _path := "/x"; _value := "v0"; _acl_vec := [] |})).
  right. split; [|exact H]. vm_compute. right. left.
Defined.

End ZookeeperClientFacts.

(** * Further properties of the registry *)

(** X1.  Detach of a handle: the status is 0 exactly when the handle had an
    entry; afterwards the handle has none and every other handle keeps
    its own; nothing is logged, also on failure; a second Detach of the
    handle returns -1 and changes nothing. *)
Theorem Detach_missing_handle st handle :
  ((Detach st handle).1 = 0 ↔ is_Some (m_processor_map st !! handle))
  ∧ ((Detach st handle).1 = -1 ↔ m_processor_map st !! handle = None)
  ∧ m_processor_map (Detach st handle).2 !! handle = None
  ∧ (∀ h, h ≠ handle →
       m_processor_map (Detach st handle).2 !! h = m_processor_map st !! h)
  ∧ new_effects st (Detach st handle).2 = []
  ∧ Detach (Detach st handle).2 handle = (-1, (Detach st handle).2).
Proof.
  unfold Detach; simpl.
  split; [|split; [|split; [|split; [|split]]]].
  - destruct (m_processor_map st !! handle); simpl.
    + split; [eauto | done].
    + split; [done | by intros [? ?]].
  - by destruct (m_processor_map st !! handle).
  - apply lookup_delete_eq.
  - intros h Hh. by apply lookup_delete_ne.
  - by apply new_effects_same.
  - rewrite lookup_delete_eq; simpl. f_equal.
    unfold set_processor_map; simpl. f_equal. apply delete_delete_eq.
Qed.

(** X2.  Attach followed by Detach of the same handle succeeds, and on a handle
    that had no entry it gives back the state the client started from.
    On a handle that was attached to another processor the earlier
    attachment is not restored: the handle has no entry. *)
Theorem Attach_Detach_round_trip st handle processor :
  processor ≠ NULL →
  (Detach (Attach st handle processor).2 handle).1 = 0
  ∧ m_processor_map (Detach (Attach st handle processor).2 handle).2 !! handle
    = None
  ∧ (m_processor_map st !! handle = None →
     (Detach (Attach st handle processor).2 handle).2 = st).
Proof.
  intros Hp. rewrite Attach_processor by done.
  unfold Detach; simpl. rewrite lookup_insert_eq; simpl.
  split; [done|]. split; [apply lookup_delete_eq|].
  intros Hnone. destruct st; unfold set_processor_map; simpl in *. f_equal.
  rewrite delete_insert_eq. by apply delete_id.
Qed.

Lemma Attach_Detach_round_trip_witness :
  (7 ≠ NULL)
  ∧ m_processor_map fresh_client !! 5 = None
  ∧ (Detach (Attach fresh_client 5 7).2 5).2 = fresh_client.
Proof.
  assert (Hp : 7 ≠ NULL) by discriminate.
  split; [exact Hp|]. split; [reflexivity|].
  exact (proj2 (proj2 (Attach_Detach_round_trip fresh_client 5 7 Hp)) eq_refl).
Defined.






(** * Further properties of router reconciliation *)

Lemma attach_each_unfold st handles processor :
  processor ≠ NULL →
  attach_each st handles processor
  = set_processor_map (λ m, foldl (λ m h, <[h := processor]> m) m handles) st.
Proof.
  intros Hp. revert st. unfold attach_each.
  induction handles as [|h handles IH]; intros st; simpl.
  - by destruct st.
  - rewrite IH. by rewrite Attach_processor.
Qed.

Lemma detach_each_unfold st handles :
  detach_each st handles
  = set_processor_map (λ m, foldl (λ m h, delete h m) m handles) st.
Proof.
  revert st. unfold detach_each.
  induction handles as [|h handles IH]; intros st; simpl.
  - by destruct st.
  - by rewrite IH.
Qed.

Lemma OnRouterAddressChanged_unfold st router handles processor :
  processor ≠ NULL →
  OnRouterAddressChanged st router handles processor
  = set_router_handle_map (<[router := handles]>)
      (set_processor_map
         (λ m, foldl (λ m h, <[h := processor]> m)
                 (foldl (λ m h, delete h m) m
                    (default [] (m_router_handle_map st !! router)))
                 handles) st).
Proof.
  intros Hp. unfold OnRouterAddressChanged.
  destruct (m_router_handle_map st !! router) as [old|]; simpl.
  - rewrite attach_each_unfold, detach_each_unfold by done. done.
  - rewrite attach_each_unfold by done. done.
Qed.

(** X5.  Delivering the same handle list a second time leaves the client
    exactly as the first delivery left it. *)
Theorem OnRouterAddressChanged_idempotent st router handles processor :
  processor ≠ NULL →
  OnRouterAddressChanged
    (OnRouterAddressChanged st router handles processor) router handles processor
  = OnRouterAddressChanged st router handles processor.
Proof.
  intros Hp.
  rewrite (OnRouterAddressChanged_unfold
             (OnRouterAddressChanged st router handles processor)) by done.
  rewrite OnRouterAddressChanged_recorded, lookup_insert_eq; simpl.
  rewrite (OnRouterAddressChanged_unfold st) by done.
  unfold set_router_handle_map, set_processor_map; simpl. f_equal.
  - apply map_eq. intros h.
    rewrite (lookup_insert_each _ handles processor h).
    destruct (decide (h ∈ handles)) as [Hin|Hnin].
    + by rewrite lookup_insert_each, decide_True.
    + rewrite lookup_delete_each, decide_False by done. done.
  - apply insert_insert_eq.
Qed.

Lemma OnRouterAddressChanged_idempotent_witness :
  (7 ≠ NULL)
  ∧ OnRouterAddressChanged
      (OnRouterAddressChanged fresh_client 300 [1; 2] 7) 300 [1; 2] 7
    = OnRouterAddressChanged fresh_client 300 [1; 2] 7.
Proof.
  assert (Hp : 7 ≠ NULL) by discriminate.
  split; [exact Hp|].
  exact (OnRouterAddressChanged_idempotent fresh_client 300 [1; 2] 7 Hp).
Defined.

(** X6.  Routers share the registry by handle.  When a router drops a handle
    from its list, the handle loses its entry whichever processor it was
    attached to, also when another router has delivered the same handle
    since: that router's recorded list still names the handle, but a
    message for it now reaches no processor. *)
Theorem OnRouterAddressChanged_shared_handle
    st router1 router2 old1 handles1 handles2 processor1 h msg msg_len info :
  router1 ≠ router2 →
  processor1 ≠ NULL →
  m_router_handle_map st !! router1 = Some old1 →
  m_router_handle_map st !! router2 = Some handles2 →
  h ∈ old1 → h ∈ handles2 → h ∉ handles1 →
  _self_handle info = h →
  m_processor_map (OnRouterAddressChanged st router1 handles1 processor1) !! h
  = None
  ∧ m_router_handle_map (OnRouterAddressChanged st router1 handles1 processor1)
      !! router2 = Some handles2
  ∧ dispatched
      (new_effects (OnRouterAddressChanged st router1 handles1 processor1)
         (OnMessage (OnRouterAddressChanged st router1 handles1 processor1)
            msg msg_len info).2) = [].
Proof.
  intros Hr Hp Hold1 Hold2 Hin1 Hin2 Hnin Hinfo.
  assert (Hnone :
    m_processor_map (OnRouterAddressChanged st router1 handles1 processor1) !! h
    = None).
  { rewrite OnRouterAddressChanged_lookup by done.
    rewrite Hold1; simpl. rewrite decide_False by done. by rewrite decide_True. }
  split; [done|]. split.
  - rewrite OnRouterAddressChanged_recorded. by rewrite lookup_insert_ne.
  - rewrite OnMessage_effects, Hinfo, Hnone. done.
Qed.

Lemma OnRouterAddressChanged_shared_handle_witness :
  m_processor_map
    (OnRouterAddressChanged fresh_client 300 [1] 7) !! 1 = Some 7
  ∧ m_processor_map
      (OnRouterAddressChanged
         (OnRouterAddressChanged
            (OnRouterAddressChanged fresh_client 300 [1] 7) 301 [1] 8)
         300 [] 7) !! 1 = None
  ∧ m_router_handle_map
      (OnRouterAddressChanged
         (OnRouterAddressChanged
            (OnRouterAddressChanged fresh_client 300 [1] 7) 301 [1] 8)
         300 [] 7) !! 301 = Some [1].
Proof.
  split; [reflexivity|].
  destruct (OnRouterAddressChanged_shared_handle
              (OnRouterAddressChanged
                 (OnRouterAddressChanged fresh_client 300 [1] 7) 301 [1] 8)
              300 301 [1] [] [1] 7 1 [] 0
              {| _self_handle := 1; _remote_handle := 0 |})
    as (H1 & H2 & _).
  - discriminate.
  - discriminate.
  - reflexivity.
  - reflexivity.
  - apply list_elem_of_here.
  - apply list_elem_of_here.
  - apply not_elem_of_nil.
  - reflexivity.
  - exact (conj H1 H2).
Defined.

Lemma attach_each_NULL st handles :
  attach_each st handles NULL
  = emit_all (replicate (length handles) (PLOG_ERROR "param processor is NULL" []))
      st.
Proof.
  revert st. unfold attach_each, emit_all.
  induction handles as [|h handles IH]; intros st; simpl; [done|].
  by rewrite IH.
Qed.

Lemma errors_logged_replicate n fmt args :
  errors_logged (replicate n (PLOG_ERROR fmt args)) = n.
Proof. unfold errors_logged. induction n; simpl; [done | by f_equal]. Qed.

(** X7.  A delivery made with a null processor attaches nothing: the handles
    delivered before are detached, each handle of the new list costs one
    error record, and the new list is recorded all the same. *)
Theorem OnRouterAddressChanged_null_processor st router handles :
  m_processor_map (OnRouterAddressChanged st router handles NULL)
  = foldl (λ m h, delete h m) (m_processor_map st)
      (default [] (m_router_handle_map st !! router))
  ∧ m_router_handle_map (OnRouterAddressChanged st router handles NULL) !! router
    = Some handles
  ∧ errors_logged
      (new_effects st (OnRouterAddressChanged st router handles NULL))
    = length handles.
Proof.
  split; [|split].
  - unfold OnRouterAddressChanged.
    destruct (m_router_handle_map st !! router) as [old|]; simpl;
      rewrite attach_each_NULL;
      rewrite (proj2 (proj2 (proj2 (proj2 (proj2 (emit_all_members _ _))))));
      [by rewrite detach_each_processor_map | done].
  - rewrite OnRouterAddressChanged_recorded. apply lookup_insert_eq.
  - unfold OnRouterAddressChanged, new_effects.
    destruct (m_router_handle_map st !! router) as [old|]; simpl;
      rewrite attach_each_NULL, trace_emit_all, ?detach_each_unfold; simpl;
      rewrite drop_app_length; apply errors_logged_replicate.
Qed.

(** * Further properties of naming backends and routers *)

(** X8.  Naming backends are cached by type.  Once [GetNaming] has handed out
    a backend for a type, every later call for that type (in any world)
    hands out the same one without asking a factory and without changing
    the client; creating it left the slots of the other types alone. *)
Theorem GetNaming_cached w w' st naming_type naming st' :
  GetNaming w st naming_type = Some (naming, st') →
  naming ≠ NULL →
  GetNaming w' st' naming_type = Some (naming, st')
  ∧ (∀ j, j ≠ naming_type → m_naming_array st' !! j = m_naming_array st !! j)
  ∧ length (m_naming_array st') = length (m_naming_array st).
Proof.
  unfold GetNaming. intros Hget Hn.
  destruct (m_naming_array st !! naming_type) as [p|] eqn:Hslot; simpl in Hget;
    [|done].
  destruct (decide (p ≠ NULL)) as [Hp|Hp].
  { injection Hget as <- <-. rewrite Hslot; simpl.
    rewrite decide_True by done. done. }
  destruct (decide (GetNamingFactory w naming_type = NULL)).
  { injection Hget as <- _. done. }
  injection Hget as <- <-. simpl.
  rewrite list_lookup_insert_eq by (by eapply lookup_lt_Some); simpl.
  rewrite decide_True by done. split; [done|]. split.
  - intros j Hj. by apply list_lookup_insert_ne.
  - apply length_insert.
Qed.

Lemma GetNaming_cached_witness :
  GetNaming quiet_world fresh_client 0
  = Some (400, set_naming_array (<[0%nat := 400]>)
                 (emit (NamingFactory_GetNaming 200 400) fresh_client))
  ∧ 400 ≠ NULL
  ∧ GetNaming (world_of 0 1 0 (-1))
      (set_naming_array (<[0%nat := 400]>)
         (emit (NamingFactory_GetNaming 200 400) fresh_client)) 0
    = Some (400, set_naming_array (<[0%nat := 400]>)
                   (emit (NamingFactory_GetNaming 200 400) fresh_client)).
Proof.
  assert (H1 : GetNaming quiet_world fresh_client 0
    = Some (400, set_naming_array (<[0%nat := 400]>)
                   (emit (NamingFactory_GetNaming 200 400) fresh_client)))
    by reflexivity.
  assert (H2 : 400 ≠ NULL) by discriminate.
  split; [exact H1|]. split; [exact H2|].
  exact (proj1 (GetNaming_cached quiet_world (world_of 0 1 0 (-1)) fresh_client
                  0 400 _ H1 H2)).
Defined.

(** X9.  A naming type without a factory: [GetNaming] returns NULL with one
    error record and stores nothing, so the failure is not remembered; a
    later call, once a factory for the type exists, creates the backend.
    An index outside the array is undefined. *)
Theorem GetNaming_unsupported_type w w' st naming_type :
  m_naming_array st !! naming_type = Some NULL →
  GetNamingFactory w naming_type = NULL →
  GetNamingFactory w' naming_type ≠ NULL →
  GetNaming w st naming_type
  = Some (NULL, emit (PLOG_ERROR "unsupport naming_type %d"
                        [ArgInt (Z.of_nat naming_type)]) st)
  ∧ (∀ st1, GetNaming w st naming_type = Some (NULL, st1) →
       m_naming_array st1 = m_naming_array st
       ∧ fst <$> GetNaming w' st1 naming_type
         = Some (NamingFactory_GetNaming_ret w' (GetNamingFactory w' naming_type)))
  ∧ (∀ j, m_naming_array st !! j = None → GetNaming w st j = None).
Proof.
  intros Hslot Hf Hf'. unfold GetNaming. rewrite Hslot; simpl.
  rewrite decide_True by done.
  split; [done|]. split.
  - intros st1 [= <-]. split; [done|]. simpl. rewrite Hslot; simpl.
      rewrite decide_False by done. done.
  - intros j Hj. by rewrite Hj.
Qed.

Lemma GetNaming_unsupported_type_witness :
  m_naming_array fresh_client !! 1%nat = Some NULL
  ∧ GetNamingFactory bare_world 1 = NULL
  ∧ GetNamingFactory quiet_world 1 ≠ NULL
  ∧ fst <$> GetNaming bare_world fresh_client 1 = Some NULL.
Proof.
  assert (H3 : GetNamingFactory quiet_world 1 ≠ NULL) by discriminate.
  split; [reflexivity|]. split; [reflexivity|]. split; [exact H3|].
  exact (f_equal (fmap fst)
    (proj1 (GetNaming_unsupported_type bare_world quiet_world fresh_client 1
              eq_refl eq_refl H3))).
Defined.

Lemma GetNaming_frame w st naming_type naming st' :
  GetNaming w st naming_type = Some (naming, st') →
  m_router_map st' = m_router_map st
  ∧ m_processor_map st' = m_processor_map st
  ∧ m_router_handle_map st' = m_router_handle_map st.
Proof.
  unfold GetNaming. intros Hget.
  destruct (m_naming_array st !! naming_type) as [p|]; simpl in Hget; [|done].
  destruct (decide (p ≠ NULL)); [by injection Hget as _ <-|].
  destruct (decide (GetNamingFactory w naming_type = NULL));
    by injection Hget as _ <-.
Qed.

(** X10.  [GetRouter] only ever adds to the router map: a router cached under
    any name stays cached under that name, and the call never attaches or
    detaches a handle. *)
Theorem GetRouter_preserves w st name router_type router st' :
  GetRouter w st name router_type = Some (router, st') →
  (∀ n r, m_router_map st !! n = Some r → m_router_map st' !! n = Some r)
  ∧ m_processor_map st' = m_processor_map st
  ∧ m_router_handle_map st' = m_router_handle_map st.
Proof.
  unfold GetRouter. intros Hget.
  destruct (decide (name = "")); [by injection Hget as _ <-|].
  destruct (m_router_map st !! name) as [r0|] eqn:Hmap;
    [by injection Hget as _ <-|].
  destruct (decide (GetRouterFactory w router_type = NULL));
    [by injection Hget as _ <-|].
  destruct (GetNaming w _ _) as [[naming st1]|] eqn:Hn; simpl in Hget; [|done].
  destruct (decide (_ = NULL)); [done|].
  apply GetNaming_frame in Hn as (Hrm & Hpm & Hhm); simpl in Hrm, Hpm, Hhm.
  injection Hget as _ <-.
  split; [|by destruct (decide (_ ≠ 0))].
  intros cached r Hr.
  assert (cached ≠ name) by (intros ->; congruence).
  destruct (decide (_ ≠ 0)); simpl; rewrite lookup_insert_ne by done;
    by rewrite Hrm.
Qed.

Lemma GetRouter_preserves_witness :
  GetRouter quiet_world (client_after_GetRouter quiet_world) "svc-b" 0
  = Some (300,
          set_router_map (<["svc-b" := 300]>)
            (emit (Router_Init 300 400 0)
               (emit (RouterFactory_GetRouter 100 "svc-b" 300)
                  (client_after_GetRouter quiet_world))))
  ∧ m_router_map (client_after_GetRouter quiet_world) !! "svc-a" = Some 300
  ∧ m_router_map
      (set_router_map (<["svc-b" := 300]>)
         (emit (Router_Init 300 400 0)
            (emit (RouterFactory_GetRouter 100 "svc-b" 300)
               (client_after_GetRouter quiet_world)))) !! "svc-a"
    = Some 300.
Proof.
  assert (H : GetRouter quiet_world (client_after_GetRouter quiet_world) "svc-b" 0
  = Some (300,
          set_router_map (<["svc-b" := 300]>)
            (emit (Router_Init 300 400 0)
               (emit (RouterFactory_GetRouter 100 "svc-b" 300)
                  (client_after_GetRouter quiet_world)))))
    by (vm_compute; reflexivity).
  assert (Ha : m_router_map (client_after_GetRouter quiet_world) !! "svc-a"
               = Some 300) by (vm_compute; reflexivity).
  split; [exact H|]. split; [exact Ha|].
  exact (proj1 (GetRouter_preserves quiet_world
                  (client_after_GetRouter quiet_world) "svc-b" 0 300
                  (set_router_map (<["svc-b" := 300]>)
            (emit (Router_Init 300 400 0)
               (emit (RouterFactory_GetRouter 100 "svc-b" 300)
                  (client_after_GetRouter quiet_world)))) H)
           "svc-a" 300 Ha).
Defined.

(** X11.  A router type without a factory: [GetRouter] returns NULL with one
    error record, caches nothing under the name and creates no naming
    backend.  When the factory hands back a null router, the call goes
    through the null pointer ([router->Init]). *)
Theorem GetRouter_failure_modes w st name router_type :
  name ≠ "" →
  m_router_map st !! name = None →
  (GetRouterFactory w router_type = NULL →
   GetRouter w st name router_type
   = Some (NULL, emit (PLOG_ERROR "unsupport router_type %d"
                         [ArgInt router_type]) st))
  ∧ (GetRouterFactory w router_type ≠ NULL →
     RouterFactory_GetRouter_ret w (GetRouterFactory w router_type) name = NULL →
     GetRouter w st name router_type = None).
Proof.
  intros Hname Hmap. unfold GetRouter.
  rewrite decide_False by done. rewrite Hmap. split.
  - intros Hf. by rewrite decide_True.
  - intros Hf Hr. rewrite decide_False by done.
    destruct (GetNaming w _ _) as [[naming st1]|]; simpl; [|done].
    by rewrite decide_True.
Qed.

Lemma GetRouter_failure_modes_witness :
  "svc-a" ≠ ""
  ∧ m_router_map fresh_client !! "svc-a" = None
  ∧ GetRouterFactory bare_world 0 = NULL
  ∧ fst <$> GetRouter bare_world fresh_client "svc-a" 0 = Some NULL.
Proof.
  assert (H1 : "svc-a" ≠ "") by discriminate.
  assert (H2 : m_router_map fresh_client !! "svc-a" = None) by reflexivity.
  split; [exact H1|]. split; [exact H2|]. split; [reflexivity|].
  exact (f_equal (fmap fst)
    (proj1 (GetRouter_failure_modes bare_world fresh_client "svc-a" 0 H1 H2)
       eq_refl)).
Defined.


(** * Further properties of start-up *)

Ltac explicit_member H :=
  repeat (apply elem_of_cons in H as [H|H]; [try discriminate|]);
  try (by apply not_elem_of_nil in H).

Ltac Init_cases :=
  unfold Init, InitTimer, InitCoSchedule, InitStat, CHECK_RETURN, fails, new;
  repeat match goal with
         | |- context [decide ?P] => destruct (decide P); simpl
         end;
  simpl in *;
  unfold new_effects; simpl;
  rewrite <- ?app_assoc; rewrite drop_app_length; simpl.

(** X12.  [Init] stops at the first failure.  A later subsystem is started only
    when every subsystem before it came up: the scheduler only after the
    stat timer, the statistics manager only after both, the transport
    callbacks are registered only after these three, the router factory
    only after the transport; and SIGPIPE is set to be ignored exactly
    when [Init] returns 0. *)
Theorem Init_fail_fast w st :
  (∀ r, CoroutineSchedule_Init r ∈ new_effects st (Init w st).2 →
        fails w st Sub_Timer = false)
  ∧ (∀ r, StatManager_Init r ∈ new_effects st (Init w st).2 →
          fails w st Sub_Timer = false ∧ fails w st Sub_CoSchedule = false)
  ∧ (∀ r, Message_Init r ∈ new_effects st (Init w st).2 →
          fails w st Sub_Timer = false ∧ fails w st Sub_CoSchedule = false
          ∧ fails w st Sub_Stat = false)
  ∧ (∀ r, SetRouterFactory r ∈ new_effects st (Init w st).2 →
          fails w st Sub_Timer = false ∧ fails w st Sub_CoSchedule = false
          ∧ fails w st Sub_Stat = false ∧ fails w st Sub_Transport = false)
  ∧ (Signal_SIGPIPE_IGN ∈ new_effects st (Init w st).2 ↔ (Init w st).1 = 0).
Proof.
  Init_cases.
  all: (split; [|split; [|split; [|split]]]);
    try (intros r Hin; explicit_member Hin;
         repeat split; apply bool_decide_eq_false_2; tauto).
  all: split; intros Hin; try done; try (explicit_member Hin).
  all: repeat first [apply list_elem_of_here | apply list_elem_of_further].
Qed.

Lemma InitTimer_members w st :
  m_timer (InitTimer w st).2
  = (if decide (m_timer st = NULL) then next_object st else m_timer st)
  ∧ m_coroutine_schedule (InitTimer w st).2 = m_coroutine_schedule st
  ∧ m_stat_manager (InitTimer w st).2 = m_stat_manager st
  ∧ m_processor_map (InitTimer w st).2 = m_processor_map st
  ∧ next_object st ≤ next_object (InitTimer w st).2.
Proof.
  unfold InitTimer, new.
  destruct (decide (m_timer st = NULL));
    destruct (decide (Timer_StartTimer_ret w < 0)); simpl; repeat split; lia.
Qed.

Lemma InitCoSchedule_members w st :
  (InitCoSchedule w st).1 = 0 →
  m_coroutine_schedule (InitCoSchedule w st).2
  = (if decide (m_coroutine_schedule st = NULL) then next_object st
     else m_coroutine_schedule st)
  ∧ m_timer (InitCoSchedule w st).2 = m_timer st
  ∧ m_stat_manager (InitCoSchedule w st).2 = m_stat_manager st
  ∧ m_processor_map (InitCoSchedule w st).2 = m_processor_map st
  ∧ next_object st ≤ next_object (InitCoSchedule w st).2.
Proof.
  unfold InitCoSchedule, new.
  destruct (decide (m_coroutine_schedule st ≠ NULL)) as [H|H]; simpl.
  - intros _. rewrite decide_False by done. repeat split; lia.
  - destruct (decide (CoroutineSchedule_Init_ret w ≠ 0)); simpl; [done|].
    intros _. rewrite decide_True by (by apply dec_stable).
    repeat split; lia.
Qed.

Lemma InitStat_members w st :
  m_stat_manager (InitStat w st).2
  = (if decide (m_stat_manager st = NULL) then next_object st
     else m_stat_manager st)
  ∧ m_timer (InitStat w st).2 = m_timer st
  ∧ m_coroutine_schedule (InitStat w st).2 = m_coroutine_schedule st
  ∧ m_processor_map (InitStat w st).2 = m_processor_map st.
Proof.
  unfold InitStat, new.
  destruct (decide (m_stat_manager st = NULL)); simpl; done.
Qed.

(** X13.  A start-up in which nothing fails returns 0 and leaves the timer, the
    scheduler and the statistics manager in place; components that
    existed before are kept, and no handle is attached. *)
Theorem Init_success_state w st :
  (∀ s, fails w st s = false) →
  0 < next_object st →
  (Init w st).1 = 0
  ∧ m_timer (Init w st).2 ≠ NULL
  ∧ m_coroutine_schedule (Init w st).2 ≠ NULL
  ∧ m_stat_manager (Init w st).2 ≠ NULL
  ∧ (m_timer st ≠ NULL → m_timer (Init w st).2 = m_timer st)
  ∧ (m_coroutine_schedule st ≠ NULL →
     m_coroutine_schedule (Init w st).2 = m_coroutine_schedule st)
  ∧ (m_stat_manager st ≠ NULL → m_stat_manager (Init w st).2 = m_stat_manager st)
  ∧ m_processor_map (Init w st).2 = m_processor_map st.
Proof.
  intros Hok Hnext.
  split; [by apply Init_success|].
  pose proof (Hok Sub_Timer) as H1. pose proof (Hok Sub_CoSchedule) as H2.
  pose proof (Hok Sub_Stat) as H3. pose proof (Hok Sub_Transport) as H4.
  pose proof (Hok Sub_RouterFactory) as H5.
  unfold fails in H1, H2, H3, H4, H5.
  apply bool_decide_eq_false in H1, H2, H3, H4, H5.
  unfold Init, CHECK_RETURN.
  set (st0 := emit (PLOG_INFO "%s") (emit InitLog (emit RegisterErrorString st))).
  pose proof (InitTimer_status w st0) as Ht.
  pose proof (InitTimer_members w st0) as (Tt & Tc & Ts & Tp & Tn).
  destruct (InitTimer w st0) as [ret1 st1]; simpl in Ht, Tt, Tc, Ts, Tp, Tn.
  rewrite decide_False in Ht by done. subst ret1.
  rewrite decide_False by (intros H; by apply H).
  pose proof (InitCoSchedule_status w st1) as Hc.
  rewrite Tc in Hc. rewrite decide_False in Hc by done.
  pose proof (InitCoSchedule_members w st1 Hc) as (Cc & Ct & Cs & Cp & Cn).
  destruct (InitCoSchedule w st1) as [ret2 st2]; simpl in Hc, Cc, Ct, Cs, Cp, Cn.
  subst ret2. rewrite decide_False by (intros H; by apply H).
  pose proof (InitStat_status w st2) as Hs.
  pose proof (InitStat_members w st2) as (Ss & St & Sc & Sp).
  destruct (InitStat w st2) as [ret3 st3]; simpl in Hs, Ss, St, Sc, Sp.
  subst ret3.
  rewrite (decide_False (P := StatManager_Init_ret w ≠ 0)) by done.
  rewrite (decide_False (P := Message_Init_ret w ≠ 0)) by done.
  rewrite (decide_False (P := SetRouterFactory_ret w ≠ 0)) by done.
  simpl.
  rewrite St, Ct, Tt, Sc, Cc, Tc, Ss, Cs, Ts, Sp, Cp, Tp.
  unfold NULL in *.
  repeat split; repeat case_decide; try done; try lia.
Qed.

Lemma Init_success_state_witness :
  (∀ s, fails quiet_world fresh_client s = false)
  ∧ 0 < next_object fresh_client
  ∧ (Init quiet_world fresh_client).1 = 0
  ∧ m_timer (Init quiet_world fresh_client).2 ≠ NULL.
Proof.
  assert (H1 : ∀ s, fails quiet_world fresh_client s = false)
    by (intros []; reflexivity).
  assert (H2 : 0 < next_object fresh_client) by reflexivity.
  split; [exact H1|]. split; [exact H2|].
  destruct (Init_success_state quiet_world fresh_client H1 H2) as (R1 & R2 & _).
  exact (conj R1 R2).
Defined.

(** X14.  A failed scheduler start cleans up after itself: the scheduler object
    that was just made is deleted and the member is NULL again, so a
    later start makes a fresh one.  When a scheduler exists, the start is
    a no-op that returns 0. *)
Theorem InitCoSchedule_failure_cleans_up w w' st :
  m_coroutine_schedule st = NULL →
  CoroutineSchedule_Init_ret w ≠ 0 →
  (InitCoSchedule w st).1 = -1
  ∧ m_coroutine_schedule (InitCoSchedule w st).2 = NULL
  ∧ new_effects st (InitCoSchedule w st).2
    = [CoroutineSchedule_Init (CoroutineSchedule_Init_ret w);
       Delete (next_object st);
       PLOG_ERROR "co schedule init failed(%d)"
         [ArgInt (CoroutineSchedule_Init_ret w)]]
  ∧ (CoroutineSchedule_Init_ret w' = 0 →
     (InitCoSchedule w' (InitCoSchedule w st).2).1 = 0
     ∧ m_coroutine_schedule (InitCoSchedule w' (InitCoSchedule w st).2).2
       = next_object st + 1)
  ∧ (∀ st0, m_coroutine_schedule st0 ≠ NULL → InitCoSchedule w st0 = (0, st0)).
Proof.
  intros Hnull Hfail. unfold InitCoSchedule, new.
  rewrite (decide_False (P := m_coroutine_schedule st ≠ NULL))
    by (intros H; by apply H).
  simpl. rewrite decide_True by done. simpl.
  split; [done|]. split; [done|]. split.
  { unfold new_effects; simpl. rewrite <- !app_assoc. by rewrite drop_app_length. }
  split.
  - intros Hok. rewrite Hok. simpl. done.
  - intros st0 H0. by rewrite decide_True.
Qed.

Lemma InitCoSchedule_failure_cleans_up_witness :
  m_coroutine_schedule fresh_client = NULL
  ∧ (InitCoSchedule bare_world
       (InitCoSchedule
          scheduler_fails_world
          fresh_client).2).1 = 0.
Proof.
  split; [reflexivity|].
  exact (proj1 (proj1 (proj2 (proj2 (proj2
    (InitCoSchedule_failure_cleans_up
       scheduler_fails_world
       bare_world fresh_client eq_refl ltac:(discriminate))))) eq_refl)).
Defined.

(** * Further properties of the update loop and the session manager *)

Lemma emit_all_unfold es st :
  emit_all es st
  = {| m_coroutine_schedule := m_coroutine_schedule st;
       m_stat_manager := m_stat_manager st;
       m_timer := m_timer st;
       m_stat_timer_ms := m_stat_timer_ms st;
       m_session_mgr := m_session_mgr st;
       m_naming_array := m_naming_array st;
       m_processor_array := m_processor_array st;
       m_processor_map := m_processor_map st;
       m_router_map := m_router_map st;
       m_router_handle_map := m_router_handle_map st;
       m_last_msg_info := m_last_msg_info st;
       next_object := next_object st;
       trace := trace st ++ es |}.
Proof.
  revert st. induction es as [|e es IH]; intros st.
  - destruct st; simpl. by rewrite app_nil_r.
  - unfold emit_all in *; simpl. rewrite IH; simpl. by rewrite <- app_assoc.
Qed.




(** * Further properties of coroutine start *)

(** X17.  [MakeCoroutine] returns 0 exactly when a scheduler exists, the routine
    is not empty, the scheduler hands out a task and the task starts with
    a non-negative coroutine id; in every other case it returns -1.  The
    scheduler is asked for a task only after both argument checks have
    passed.  The three rejections write one error record each; a task
    that fails to start gives -1 without any record. *)
Theorem MakeCoroutine_status rt st routine :
  ((MakeCoroutine rt st routine).1 = 0
   ↔ m_coroutine_schedule st ≠ NULL ∧ routine ≠ NULL
     ∧ CoroutineSchedule_NewTask_ret rt ≠ NULL
     ∧ 0 ≤ CommonCoroutineTask_Start_ret rt)
  ∧ ((MakeCoroutine rt st routine).1 = 0 ∨ (MakeCoroutine rt st routine).1 = -1)
  ∧ (∀ task, inr (CoroutineSchedule_NewTask task) ∈ (MakeCoroutine rt st routine).2
       ↔ task = CoroutineSchedule_NewTask_ret rt
         ∧ m_coroutine_schedule st ≠ NULL ∧ routine ≠ NULL)
  ∧ (m_coroutine_schedule st ≠ NULL → routine ≠ NULL →
     CoroutineSchedule_NewTask_ret rt ≠ NULL →
     CommonCoroutineTask_Start_ret rt < 0 →
     (MakeCoroutine rt st routine).1 = -1
     ∧ ∀ fmt args, inl (PLOG_ERROR fmt args) ∉ (MakeCoroutine rt st routine).2).
Proof.
  unfold MakeCoroutine.
  destruct (decide (m_coroutine_schedule st = NULL)) as [Hs|Hs]; simpl.
  { split; [split; [done | tauto]|]. split; [by right|]. split; [|tauto].
    intros task. split; [|tauto]. intros Hin. explicit_member Hin. }
  destruct (decide (routine = NULL)) as [Hr|Hr]; simpl.
  { split; [split; [done | tauto]|]. split; [by right|]. split; [|tauto].
    intros task. split; [|tauto]. intros Hin. explicit_member Hin. }
  destruct (decide (NULL = CoroutineSchedule_NewTask_ret rt)) as [Ht|Ht]; simpl.
  { split; [split; [done | intros (_ & _ & ? & _); congruence]|].
    split; [by right|]. split; [|intros; congruence].
    intros task. split.
    - intros Hin. explicit_member Hin. by injection Hin as ->.
    - intros (-> & _). apply list_elem_of_here. }
  destruct (decide (CommonCoroutineTask_Start_ret rt < 0)) as [Hc|Hc]; simpl.
  - split; [split; [done | intros (_ & _ & _ & ?); lia]|].
    split; [by right|]. split.
    + intros task. split.
      * intros Hin. explicit_member Hin. by injection Hin as ->.
      * intros (-> & _). apply list_elem_of_here.
    + intros _ _ _ _. split; [done|]. intros fmt args Hin. explicit_member Hin.
  - split; [split; [intros _; repeat split; try done; try congruence; lia | done]|].
    split; [by left|]. split.
    + intros task. split.
      * intros Hin. explicit_member Hin. by injection Hin as ->.
      * intros (-> & _). apply list_elem_of_here.
    + intros _ _ _ ?. lia.
Qed.

Lemma MakeCoroutine_status_witness :
  m_coroutine_schedule (Init quiet_world fresh_client).2 ≠ NULL
  ∧ (MakeCoroutine quiet_runtime (Init quiet_world fresh_client).2 900).1 = 0.
Proof.
  assert (H : m_coroutine_schedule (Init quiet_world fresh_client).2 ≠ NULL)
    by discriminate.
  split; [exact H|].
  apply (proj1 (MakeCoroutine_status quiet_runtime
                  (Init quiet_world fresh_client).2 900)).
  split; [exact H|]. repeat split; discriminate.
Defined.

(** * Further properties of the stat timer callback *)

Lemma add_resource_items_Some stat items st :
  stat ≠ NULL →
  add_resource_items stat items (Some st)
  = Some (emit_all (map (λ item : string * Z, Stat_AddResourceItem item.1 item.2)
                      items) st).
Proof.
  intros Hstat. revert st. unfold add_resource_items, emit_all.
  induction items as [|item items IH]; intros st; simpl; [done|].
  rewrite decide_False by done. apply IH.
Qed.

(** The resource items written by [StatProcessorResource], processor by
    processor. *)
Lemma StatProcessorResource_loop rt stat i array st :
  stat ≠ NULL →
  for_each_present
    (λ i o, add_resource_items stat (IProcessor_GetResourceUsed_ret rt i) o)
    i array (Some st)
  = Some (emit_all
            (concat (map (λ i, map (λ item : string * Z,
                                      Stat_AddResourceItem item.1 item.2)
                                 (IProcessor_GetResourceUsed_ret rt i))
                       (present_from i array))) st).
Proof.
  intros Hstat. revert i st.
  induction array as [|p array IH]; intros i st; simpl; [done|].
  case_decide; simpl; [|apply IH].
  rewrite add_resource_items_Some by done. rewrite IH.
  by rewrite emit_all_app.
Qed.

(** X18.  The stat timer callback is defined exactly when the statistics
    manager exists, hands out a statistics object, and the scheduler
    exists; otherwise it calls through a null pointer.  When defined it
    returns the timer interval (the timer is armed again with the same
    period), leaves the registry alone, and records the coroutine count
    followed by the resource items of the processors that exist, in slot
    order. *)
Theorem OnStatTimeout_defined rt st :
  (is_Some (OnStatTimeout rt st)
   ↔ m_stat_manager st ≠ NULL ∧ StatManager_GetStat_ret rt ≠ NULL
     ∧ m_coroutine_schedule st ≠ NULL)
  ∧ (∀ ret st', OnStatTimeout rt st = Some (ret, st') →
       ret = m_stat_timer_ms st
       ∧ m_processor_map st' = m_processor_map st
       ∧ new_effects st st'
         = Stat_AddResourceItem "_coroutine" (CoroutineSchedule_Size_ret rt)
           :: concat (map (λ i, map (λ item : string * Z,
                                       Stat_AddResourceItem item.1 item.2)
                                  (IProcessor_GetResourceUsed_ret rt i))
                        (present_from 0 (m_processor_array st)))).
Proof.
  unfold OnStatTimeout, StatCoroutine, StatProcessorResource.
  destruct (decide (m_stat_manager st = NULL)) as [Hm|Hm].
  { split; [|done]. split; [by intros [? ?] | tauto]. }
  destruct (decide (StatManager_GetStat_ret rt = NULL
                    ∨ m_coroutine_schedule st = NULL)) as [Hn|Hn]; simpl.
  { split; [|done]. split; [by intros [? ?] | tauto]. }
  assert (Hstat : StatManager_GetStat_ret rt ≠ NULL) by tauto.
  rewrite StatProcessorResource_loop by done. simpl.
  split; [split; [tauto | eauto]|].
  intros ret st' [= <- <-].
  rewrite !emit_all_unfold; simpl. split; [done|]. split; [done|].
  unfold new_effects; simpl. rewrite <- app_assoc. by rewrite drop_app_length.
Qed.

(** X19.  A start-up that fails in the scheduler leaves a hazard behind: the
    stat timer has been started, but on a client that had no statistics
    manager none was made, so the timer's callback would call through a
    null pointer. *)
Theorem OnStatTimeout_after_failed_Init w rt st :
  m_stat_manager st = NULL →
  fails w st Sub_Timer = false →
  fails w st Sub_CoSchedule = true →
  (Init w st).1 = -1
  ∧ Timer_StartTimer (m_stat_timer_ms st) (Timer_StartTimer_ret w)
      ∈ new_effects st (Init w st).2
  ∧ m_timer (Init w st).2 = (if decide (m_timer st = NULL)
                             then next_object st else m_timer st)
  ∧ OnStatTimeout rt (Init w st).2 = None.
Proof.
  intros Hstat Ht Hc. unfold fails in Ht, Hc.
  apply bool_decide_eq_false in Ht. apply bool_decide_eq_true in Hc as [Hnull Hret].
  unfold Init, InitTimer, InitCoSchedule, CHECK_RETURN, new; simpl.
  rewrite (decide_False (P := Timer_StartTimer_ret w < 0)) by done.
  destruct (decide (m_timer st = NULL)) as [Htm|Htm]; simpl;
    rewrite Hnull; simpl;
    rewrite (decide_True (P := CoroutineSchedule_Init_ret w ≠ 0)) by done; simpl.
  all: split; [done|]; split;
    [unfold new_effects; simpl; rewrite <- !app_assoc, drop_app_length;
     do 3 apply list_elem_of_further; apply list_elem_of_here|].
  all: split; [done|].
  all: unfold OnStatTimeout; simpl; by rewrite decide_True.
Qed.

Lemma OnStatTimeout_after_failed_Init_witness :
  m_stat_manager fresh_client = NULL
  ∧ OnStatTimeout quiet_runtime
      (Init
         scheduler_fails_world
         fresh_client).2 = None.
Proof.
  split; [reflexivity|].
  exact (proj2 (proj2 (proj2
    (OnStatTimeout_after_failed_Init
       scheduler_fails_world
       quiet_runtime fresh_client eq_refl eq_refl eq_refl)))).
Defined.

(** * Further properties of the RPC processors *)

Ltac GetPebbleRpc_cases H :=
  unfold GetPebbleRpc, new in H;
  repeat match type of H with
         | context [decide ?P] => destruct (decide P); simpl in H
         | context [m_processor_array ?st !! ?i] =>
             let E := fresh "Hslot" in
             destruct (m_processor_array st !! i) eqn:E; simpl in H
         | context [rpc_code_type_of ?k ?pt] =>
             let E := fresh "Hcode" in
             destruct (rpc_code_type_of k pt) eqn:E; simpl in H
         end;
  try discriminate H;
  try (injection H as <- <- <-).

(** After a successful call the slot of the protocol type holds the
    processor that was handed out. *)
Lemma GetPebbleRpc_slot k c protocol_type rpc c' out :
  GetPebbleRpc k c protocol_type = Some (rpc, c', out) →
  rpc ≠ NULL →
  0 ≤ protocol_type
  ∧ m_processor_array (base c') !! Z.to_nat protocol_type = Some rpc.
Proof.
  intros H Hrpc. GetPebbleRpc_cases H; try done; simpl.
  all: split; [lia|]; try done.
  all: apply list_lookup_insert_eq; by eapply lookup_lt_Some.
Qed.

(** X20.  RPC processors are cached by protocol type.  Once [GetPebbleRpc] has
    handed out a processor, every later call for the type hands out the
    same one, makes no call and changes nothing.  Making a processor
    touches the slot of its own type only and attaches it to no handle. *)
Theorem GetPebbleRpc_cached k c protocol_type rpc c' out :
  GetPebbleRpc k c protocol_type = Some (rpc, c', out) →
  rpc ≠ NULL →
  GetPebbleRpc k c' protocol_type = Some (rpc, c', [])
  ∧ kPEBBLE_RPC_BINARY k ≤ protocol_type ≤ kPEBBLE_RPC_PROTOBUF k
  ∧ (∀ j, j ≠ Z.to_nat protocol_type →
       m_processor_array (base c') !! j = m_processor_array (base c) !! j)
  ∧ m_processor_map (base c') = m_processor_map (base c).
Proof.
  intros H Hrpc.
  destruct (GetPebbleRpc_slot _ _ _ _ _ _ H Hrpc) as [Hpos Hslot'].
  assert (Hrange : kPEBBLE_RPC_BINARY k ≤ protocol_type ≤ kPEBBLE_RPC_PROTOBUF k).
  { GetPebbleRpc_cases H; try done; lia. }
  split.
  { unfold GetPebbleRpc. rewrite decide_False by lia.
    rewrite decide_False by lia. rewrite Hslot'; simpl.
    by rewrite decide_True. }
  split; [done|].
  GetPebbleRpc_cases H; try done; simpl.
  all: split; [|done]; intros j Hj; by rewrite list_lookup_insert_ne.
Qed.

Lemma GetPebbleRpc_cached_witness :
  GetPebbleRpc enumerators fresh_rpc_client 1
  = Some (2,
          {| base := set_processor_array (<[1%nat := 2]>)
                       (new (new fresh_client).2).2;
             m_rpc_event_handler := 1 |},
          [inr (RpcEventHandler_Init 1 NULL); inr (PebbleRpc_new 2 0 NULL);
           inr (PebbleRpc_SetSendFunction 2); inr (PebbleRpc_SetEventHandler 2 1)])
  ∧ 2 ≠ NULL
  ∧ GetPebbleRpc enumerators
      {| base := set_processor_array (<[1%nat := 2]>)
                   (new (new fresh_client).2).2;
         m_rpc_event_handler := 1 |} 1
    = Some (2,
            {| base := set_processor_array (<[1%nat := 2]>)
                         (new (new fresh_client).2).2;
               m_rpc_event_handler := 1 |}, []).
Proof.
  assert (H1 : GetPebbleRpc enumerators fresh_rpc_client 1
  = Some (2,
          {| base := set_processor_array (<[1%nat := 2]>)
                       (new (new fresh_client).2).2;
             m_rpc_event_handler := 1 |},
          [inr (RpcEventHandler_Init 1 NULL); inr (PebbleRpc_new 2 0 NULL);
           inr (PebbleRpc_SetSendFunction 2); inr (PebbleRpc_SetEventHandler 2 1)]))
    by reflexivity.
  assert (H2 : 2 ≠ NULL) by discriminate.
  split; [exact H1|]. split; [exact H2|].
  exact (proj1 (GetPebbleRpc_cached enumerators fresh_rpc_client 1 2 _ _ H1 H2)).
Defined.

(** X21.  The client has one RPC event handler.  It is made by the first call
    that creates a processor, initialized with the statistics manager the
    client has at that moment (none, before [Init]), and never replaced:
    a call on a client that has a handler makes none, and every processor
    is given the client's handler. *)
Theorem GetPebbleRpc_one_event_handler k c protocol_type rpc c' out :
  GetPebbleRpc k c protocol_type = Some (rpc, c', out) →
  (m_rpc_event_handler c ≠ NULL →
   m_rpc_event_handler c' = m_rpc_event_handler c
   ∧ ∀ h s, inr (RpcEventHandler_Init h s) ∉ out)
  ∧ (∀ h s, inr (RpcEventHandler_Init h s) ∈ out →
       m_rpc_event_handler c = NULL ∧ h = next_object (base c)
       ∧ s = m_stat_manager (base c) ∧ m_rpc_event_handler c' = h)
  ∧ (∀ r h, inr (PebbleRpc_SetEventHandler r h) ∈ out →
       r = rpc ∧ h = m_rpc_event_handler c').
Proof.
  intros H. GetPebbleRpc_cases H; simpl.
  all: split; [intros Hh;
               first [done | split; [done|]; intros h s Hin; explicit_member Hin]|].
  all: split; [intros h s Hin; explicit_member Hin;
               try (injection Hin as -> ->; done)|].
  all: intros r h Hin; explicit_member Hin; try (by injection Hin as -> ->).
Qed.

Lemma GetPebbleRpc_one_event_handler_witness :
  GetPebbleRpc enumerators
    {| base := set_processor_array (<[1%nat := 2]>)
                 (new (new fresh_client).2).2;
       m_rpc_event_handler := 1 |} 2
  = Some (3,
          {| base := set_processor_array (<[2%nat := 3]>)
                       (new (set_processor_array (<[1%nat := 2]>)
                               (new (new fresh_client).2).2)).2;
             m_rpc_event_handler := 1 |},
          [inr (PebbleRpc_new 3 1 NULL);
           inr (PebbleRpc_SetSendFunction 3); inr (PebbleRpc_SetEventHandler 3 1)])
  ∧ m_rpc_event_handler
      {| base := set_processor_array (<[2%nat := 3]>)
                   (new (set_processor_array (<[1%nat := 2]>)
                           (new (new fresh_client).2).2)).2;
         m_rpc_event_handler := 1 |} = 1.
Proof.
  assert (H1 : GetPebbleRpc enumerators
    {| base := set_processor_array (<[1%nat := 2]>)
                 (new (new fresh_client).2).2;
       m_rpc_event_handler := 1 |} 2
  = Some (3,
          {| base := set_processor_array (<[2%nat := 3]>)
                       (new (set_processor_array (<[1%nat := 2]>)
                               (new (new fresh_client).2).2)).2;
             m_rpc_event_handler := 1 |},
          [inr (PebbleRpc_new 3 1 NULL);
           inr (PebbleRpc_SetSendFunction 3); inr (PebbleRpc_SetEventHandler 3 1)]))
    by reflexivity.
  split; [exact H1|].
  exact (proj1 (proj1 (GetPebbleRpc_one_event_handler enumerators _ 2 3 _ _ H1)
                  ltac:(discriminate))).
Defined.

(** X22.  [GetPebbleRpc] hands out NULL in two ways only.  A protocol type
    outside the range binary..protobuf is refused with one error record
    and the client untouched.  A type inside the range that the switch
    does not name ends in the fatal log, with both arrays untouched; when
    the three enumerators are consecutive there is no such type. *)
Theorem GetPebbleRpc_rejects k c protocol_type c' out :
  GetPebbleRpc k c protocol_type = Some (NULL, c', out) →
  0 < next_object (base c) →
  ((protocol_type < kPEBBLE_RPC_BINARY k ∨ protocol_type > kPEBBLE_RPC_PROTOBUF k)
   ∧ c' = c
   ∧ out = [inl (PLOG_ERROR "param protocol_type invalid(%d)"
                   [ArgInt protocol_type])])
  ∨ (kPEBBLE_RPC_BINARY k ≤ protocol_type ≤ kPEBBLE_RPC_PROTOBUF k
     ∧ rpc_code_type_of k protocol_type = None
     ∧ ¬ (kPEBBLE_RPC_JSON k = kPEBBLE_RPC_BINARY k + 1
          ∧ kPEBBLE_RPC_PROTOBUF k = kPEBBLE_RPC_BINARY k + 2)
     ∧ m_processor_array (base c') = m_processor_array (base c)
     ∧ inr (PLOG_FATAL "unsupport protocol type %d" [ArgInt protocol_type]) ∈ out).
Proof.
  intros H Hnext.
  unfold GetPebbleRpc, new in H.
  destruct (decide (protocol_type < kPEBBLE_RPC_BINARY k
                    ∨ protocol_type > kPEBBLE_RPC_PROTOBUF k)) as [Hr|Hr].
  { injection H as <- <-. by left. }
  right.
  destruct (decide (protocol_type < 0)); [done|].
  destruct (m_processor_array (base c) !! Z.to_nat protocol_type) as [p|];
    simpl in H; [|done].
  destruct (decide (p ≠ NULL)) as [Hp|Hp]; [by injection H as -> _|].
  assert (Hcode : rpc_code_type_of k protocol_type = None
                  ∧ ¬ (kPEBBLE_RPC_JSON k = kPEBBLE_RPC_BINARY k + 1
                       ∧ kPEBBLE_RPC_PROTOBUF k = kPEBBLE_RPC_BINARY k + 2)
                  ∨ is_Some (rpc_code_type_of k protocol_type)).
  { clear H. unfold rpc_code_type_of.
    repeat case_decide; eauto. left. split; [done|]. lia. }
  destruct Hcode as [[Hnone Hgap]|[code Hsome]].
  - rewrite Hnone in H.
    destruct (decide (m_rpc_event_handler c = NULL)); simpl in H;
      injection H as <- <-; simpl.
    all: split; [lia|]; split; [done|]; split; [done|]; split; [done|].
    + apply list_elem_of_further, list_elem_of_here.
    + apply list_elem_of_here.
  - rewrite Hsome in H.
    destruct (decide (m_rpc_event_handler c = NULL)); simpl in H;
      injection H as Hrpc _ _; unfold NULL in *; lia.
Qed.

Lemma GetPebbleRpc_rejects_witness :
  GetPebbleRpc enumerators fresh_rpc_client 0
  = Some (NULL, fresh_rpc_client,
          [inl (PLOG_ERROR "param protocol_type invalid(%d)" [ArgInt 0])])
  ∧ 0 < next_object (base fresh_rpc_client).
Proof.
  assert (H1 : GetPebbleRpc enumerators fresh_rpc_client 0
    = Some (NULL, fresh_rpc_client,
            [inl (PLOG_ERROR "param protocol_type invalid(%d)" [ArgInt 0])]))
    by reflexivity.
  assert (H2 : 0 < next_object (base fresh_rpc_client)) by reflexivity.
  pose proof (GetPebbleRpc_rejects enumerators fresh_rpc_client 0 _ _ H1 H2) as H.
  destruct H as [_|_]; exact (conj H1 H2).
Defined.



Lemma Detach_missing_handle_witness :
  (Detach fresh_client 5).1 = -1
  ∧ m_processor_map (Detach (Attach fresh_client 5 7).2 6).2 !! 5 = Some 7.
Proof.
  split.
  - apply (proj1 (proj2 (Detach_missing_handle fresh_client 5))). reflexivity.
  - rewrite (proj1 (proj2 (proj2 (proj2
      (Detach_missing_handle (Attach fresh_client 5 7).2 6)))) 5
      ltac:(discriminate)).
    reflexivity.
Defined.

Lemma Init_fail_fast_witness :
  Message_Init 0 ∈ new_effects fresh_client (Init quiet_world fresh_client).2
  ∧ fails quiet_world fresh_client Sub_Stat = false.
Proof.
  assert (H : Message_Init 0
              ∈ new_effects fresh_client (Init quiet_world fresh_client).2).
  { vm_compute. do 8 apply list_elem_of_further. apply list_elem_of_here. }
  split; [exact H|].
  exact (proj2 (proj2 (proj1 (proj2 (proj2
    (Init_fail_fast quiet_world fresh_client))) 0 H))).
Defined.

(** * Further properties of the coordination-service declarations *)

(** X24.  [operator<] of [EphemeralNodeInfo] is a strict weak ordering, as a
    [std::set] needs: irreflexive, asymmetric and transitive; two entries
    are equivalent (neither is less) exactly when their paths are equal,
    whatever their values and ACLs, and equivalence is transitive. *)
Theorem operator_lt_strict_weak_ordering :
  (∀ a, ZookeeperClient.operator_lt a a = false)
  ∧ (∀ a b, ZookeeperClient.operator_lt a b = true →
            ZookeeperClient.operator_lt b a = false)
  ∧ (∀ a b c, ZookeeperClient.operator_lt a b = true →
              ZookeeperClient.operator_lt b c = true →
              ZookeeperClient.operator_lt a c = true)
  ∧ (∀ a b, StdSet.equivalent ZookeeperClient.operator_lt a b = true
            ↔ ZookeeperClient._path a = ZookeeperClient._path b)
  ∧ (∀ a b c, StdSet.equivalent ZookeeperClient.operator_lt a b = true →
              StdSet.equivalent ZookeeperClient.operator_lt b c = true →
              StdSet.equivalent ZookeeperClient.operator_lt a c = true).
Proof.
  assert (Hirr : ∀ a, ZookeeperClient.operator_lt a a = false).
  { intros a. apply ltb_irrefl. }
  assert (Htr : ∀ a b c, ZookeeperClient.operator_lt a b = true →
                         ZookeeperClient.operator_lt b c = true →
                         ZookeeperClient.operator_lt a c = true).
  { intros a b c. apply ltb_trans. }
  assert (Heq : ∀ a b, StdSet.equivalent ZookeeperClient.operator_lt a b = true
                       ↔ ZookeeperClient._path a = ZookeeperClient._path b).
  { intros a b. unfold StdSet.equivalent, ZookeeperClient.operator_lt. split.
    - intros [H1 H2]%andb_true_iff.
      apply negb_true_iff in H1, H2. by apply ltb_total.
    - intros ->. by rewrite ltb_irrefl. }
  split; [done|]. split.
  { intros a b Hab. destruct (ZookeeperClient.operator_lt b a) eqn:Hba; [|done].
    pose proof (Htr _ _ _ Hab Hba) as H. by rewrite Hirr in H. }
  split; [done|]. split; [done|].
  intros a b c Hab Hbc. apply Heq. apply Heq in Hab, Hbc. congruence.
Qed.

Lemma operator_lt_strict_weak_ordering_witness :
  StdSet.equivalent ZookeeperClient.operator_lt
    {| ZookeeperClient._path := "/a/b"; ZookeeperClient._value := "v1";
       ZookeeperClient._acl_vec := [] |}
    {| ZookeeperClient._path := "/a/b"; ZookeeperClient._value := "v2";
       ZookeeperClient._acl_vec := [] |} = true.
Proof.
  apply (proj1 (proj2 (proj2 (proj2 operator_lt_strict_weak_ordering)))).
  reflexivity.
Defined.

(** X25.  The values of [ZookeeperErrorCode] are pairwise distinct, so a status
    names its error; [kZK_OK] is the only one that is not negative; every
    other value lies among the system errors (-10..-1), among the API
    errors (-120..-100), or is the encryption failure -200. *)
Theorem ZookeeperErrorCode_values :
  (∀ e1 e2, ZookeeperErrorCode_value e1 = ZookeeperErrorCode_value e2 → e1 = e2)
  ∧ (∀ e, ZookeeperErrorCode_value e ≤ 0)
  ∧ (∀ e, ZookeeperErrorCode_value e = 0 ↔ e = kZK_OK)
  ∧ (∀ e, e = kZK_OK
          ∨ -10 ≤ ZookeeperErrorCode_value e ≤ -1
          ∨ -120 ≤ ZookeeperErrorCode_value e ≤ -100
          ∨ e = kZK_ENCRYPTFAILED).
Proof.
  split; [|split; [|split]].
  - intros e1 e2. destruct e1; destruct e2; simpl; intros H;
      first [reflexivity | discriminate H].
  - intros e. destruct e; simpl; lia.
  - intros e. split; [destruct e; simpl; intros H; first [reflexivity | discriminate H]
                     | by intros ->].
  - intros e. destruct e; simpl; first [by left | right; left; lia
                                       | right; right; left; lia
                                       | by right; right; right].
Qed.

Lemma ZookeeperErrorCode_values_witness :
  ZookeeperErrorCode_value kZK_NODEEXISTS = -110
  ∧ (ZookeeperErrorCode_value kZK_OK = 0 ↔ kZK_OK = kZK_OK).
Proof.
  split; [reflexivity|].
  exact (proj1 (proj2 (proj2 ZookeeperErrorCode_values)) kZK_OK).
Defined.

Lemma OnStatTimeout_defined_witness :
  m_stat_manager (Init quiet_world fresh_client).2 ≠ NULL
  ∧ is_Some (OnStatTimeout quiet_runtime (Init quiet_world fresh_client).2).
Proof.
  assert (H : m_stat_manager (Init quiet_world fresh_client).2 ≠ NULL)
    by discriminate.
  split; [exact H|].
  apply (proj1 (OnStatTimeout_defined quiet_runtime
                  (Init quiet_world fresh_client).2)).
  split; [exact H|]. split; discriminate.
Defined.
